(** * TF-IDF engine of [tf_idf.py]: shallow embedding and verification

    The Python class [TfIdf] keeps four attributes ([_dataset],
    [_tf_idf_results], [_results_up_to_date], [_compute_on_add]) and mutates
    them in place.  Here every method is a function from the engine state
    (and, for [export]/[load], the file system) to an outcome together with
    the state the call leaves behind, so that a raised exception still
    shows the mutations performed before it.

    Python dictionaries are insertion-ordered association lists with string
    keys: the order is observable through [score_document], whose result
    order for equal scores is the insertion order of [doc_sums]. *)

From Stdlib Require Import ZArith List String Ascii Bool Lia Permutation.
From Stdlib Require Import Sorted Reals Lra.
Import ListNotations.
Local Open Scope Z_scope.

(* ================================================================== *)
(** ** Exceptions and outcomes *)

Inductive exn : Type :=
| ZeroDivisionError
| TypeError
| KeyError
| AttributeError
| OSError
| UnpicklingError.

Inductive outcome (A : Type) : Type :=
| Returned (a : A)
| Raised (e : exn).

Arguments Returned {A} a.
Arguments Raised {A} e.

(** Values a caller can pass where the code checks [type(state) is bool]. *)
Inductive pyval : Type :=
| PyBool (b : bool)
| PyInt (z : Z)
| PyStr (s : string)
| PyNone.

(* ================================================================== *)
(** ** Insertion-ordered dictionaries *)

Module Dict.
Section Ops.
Context {V : Type}.

(** [d[k]] / [d.get(k)]: the value stored under [k], if any. *)
Fixpoint get (k : string) (d : list (string * V)) : option V :=
  match d with
  | [] => None
  | (k', v) :: r => if String.eqb k k' then Some v else get k r
  end.

(** [d.get(k, dflt)]. *)
Definition get_or (dflt : V) (k : string) (d : list (string * V)) : V :=
  match get k d with
  | Some v => v
  | None => dflt
  end.

(** [k in d]. *)
Definition mem (k : string) (d : list (string * V)) : bool :=
  match get k d with
  | Some _ => true
  | None => false
  end.

(** [d[k] = v]: an existing key keeps its position, a new key goes last. *)
Fixpoint set (k : string) (v : V) (d : list (string * V))
  : list (string * V) :=
  match d with
  | [] => [(k, v)]
  | (k', v') :: r =>
      if String.eqb k k' then (k', v) :: r else (k', v') :: set k v r
  end.

(** Iteration over a dictionary yields its keys in insertion order. *)
Definition keys (d : list (string * V)) : list string := map fst d.

Definition values (d : list (string * V)) : list V := map snd d.

(** [{t: f(t) for t in ks}] for an iterable [ks] without repetitions. *)
Definition comp (f : string -> V) (ks : list string) : list (string * V) :=
  map (fun t => (t, f t)) ks.

(** [dict.fromkeys(ks, v)]. *)
Definition fromkeys (ks : list string) (v : V) : list (string * V) :=
  comp (fun _ => v) ks.
End Ops.

(** A comprehension / loop that builds one entry per entry of [d] and stops
    at the first exception. *)
Fixpoint traverse {A B : Type} (f : string -> A -> outcome B)
  (d : list (string * A)) : outcome (list (string * B)) :=
  match d with
  | [] => Returned []
  | (k, a) :: r =>
      match f k a with
      | Raised e => Raised e
      | Returned b =>
          match traverse f r with
          | Raised e => Raised e
          | Returned r' => Returned ((k, b) :: r')
          end
      end
  end.
End Dict.

(* ================================================================== *)
(** ** What the interpreter supplies: float arithmetic and set order *)

(** Operations of Python's [float] that the module uses.  [fdiv a b] is the
    true division [a / b] of two ints with [b <> 0]; [flog] is [math.log]
    (the module only applies it to [docFreq / N] with [1 <= docFreq <= N]);
    [of_int] is the implicit int-to-float conversion of mixed arithmetic;
    [flt] is [<] as used by [sorted]. *)
Class PyFloat : Type := {
  float : Type;
  of_int : Z -> float;
  fadd : float -> float -> float;
  fmul : float -> float -> float;
  fdiv : Z -> Z -> float;
  flog : float -> float;
  flt : float -> float -> bool
}.

(** Iterating a Python [set] yields its elements in an order fixed by the
    interpreter (hashing), not by the program: any rearrangement. *)
Class PySet : Type := {
  set_iter : list string -> list string;
  set_iter_perm : forall l, Permutation l (set_iter l)
}.

(** The reals as an idealised [float], for worked examples. *)
Definition RFloat : PyFloat := {|
  float := R;
  of_int := IZR;
  fadd := Rplus;
  fmul := Rmult;
  fdiv := fun a b => (IZR a / IZR b)%R;
  flog := ln;
  flt := fun x y => if Rlt_dec x y then true else false
|}.

(** A set order that yields elements in the order they entered the set. *)
Definition FifoSet : PySet := {|
  set_iter := fun l => l;
  set_iter_perm := fun l => Permutation_refl l
|}.

(* ================================================================== *)
(** ** Data model *)

(** A document: the dictionary [{"nr_terms": int, "term_count": dict}]. *)
Record document : Type := {
  nr_terms : Z;
  term_count : list (string * Z)
}.

Section Engine.
Context {PF : PyFloat} {PS : PySet}.

Definition dataset_t : Type := list (string * document).
Definition weights_t : Type := list (string * float).
Definition results_t : Type := list (string * weights_t).
Definition frequencies_t : Type := list (string * list (string * float)).

Record engine : Type := {
  _dataset : dataset_t;
  _tf_idf_results : results_t;
  _results_up_to_date : bool;
  _compute_on_add : bool
}.

(** [TfIdf(compute_on_add)]. *)
Definition TfIdf (compute_on_add : bool) : engine := {|
  _dataset := [];
  _tf_idf_results := [];
  _results_up_to_date := false;
  _compute_on_add := compute_on_add
|}.

Definition set_compute_on_add (self : engine) (state : pyval)
  : outcome unit * engine :=
  match state with
  | PyBool b =>
      (Returned tt,
       {| _dataset := _dataset self;
          _tf_idf_results := _tf_idf_results self;
          _results_up_to_date := _results_up_to_date self;
          _compute_on_add := b |})
  | _ => (Raised TypeError, self)
  end.

Definition _new_doc : document := {| nr_terms := 0; term_count := [] |}.

(** [dict(Counter(doc_terms))]: occurrences per distinct term, in order of
    first occurrence. *)
Definition Counter (doc_terms : list string) : list (string * Z) :=
  fold_left (fun c t => Dict.set t (Dict.get_or 0 t c + 1) c) doc_terms [].

(** Iteration order of [set(a) | set(b)]. *)
Definition set_union (a b : list string) : list string :=
  set_iter (nodup string_dec (a ++ b)).

(** The key-wise sum [{t: a.get(t, 0) + b.get(t, 0) for t in
    set(a) | set(b)}] used by [add_document] and [_idf]. *)
Definition merge_counts (a b : list (string * Z)) : list (string * Z) :=
  Dict.comp (fun t => Dict.get_or 0 t a + Dict.get_or 0 t b)
            (set_union (Dict.keys a) (Dict.keys b)).

(** [a / b] on ints. *)
Definition true_div (a b : Z) : outcome float :=
  if b =? 0 then Raised ZeroDivisionError else Returned (fdiv a b).

Definition _tf (self : engine) : outcome frequencies_t :=
  Dict.traverse
    (fun _ doc =>
       Dict.traverse (fun _ c => true_div c (nr_terms doc))
                     (term_count doc))
    (_dataset self).

(** One round of the counting loop of [_idf]: [document_appearances] is
    [dict.fromkeys(term_count, 1)], merged into the running table. *)
Definition count_step (acc : list (string * Z)) (entry : string * document)
  : list (string * Z) :=
  merge_counts acc (Dict.fromkeys (Dict.keys (term_count (snd entry))) 1).

(** The counting loop of [_idf]: in how many documents each term occurs. *)
Definition document_counts (ds : dataset_t) : list (string * Z) :=
  fold_left count_step ds [].

Definition _idf (self : engine) : outcome (list (string * float)) :=
  let nr_documents := Z.of_nat (List.length (_dataset self)) in
  Dict.traverse
    (fun _ n =>
       match true_div n nr_documents with
       | Raised e => Raised e
       | Returned q => Returned (fmul (of_int (-1)) (flog q))
       end)
    (document_counts (_dataset self)).

(** Body of the innermost [if] of [_compute_results]:
    [if term not in results: results[term] = {}], then
    [results[term][document] = w]. *)
Definition store (term document : string) (w : float) (r : results_t)
  : results_t :=
  let r1 := if Dict.mem term r then r else Dict.set term [] r in
  Dict.set term (Dict.set document w (Dict.get_or [] term r1)) r1.

Definition store_term (tfs : frequencies_t) (r : results_t)
  (entry : string * float) : results_t :=
  fold_left
    (fun r' doc_entry =>
       match Dict.get (fst entry) (snd doc_entry) with
       | Some f => store (fst entry) (fst doc_entry) (fmul f (snd entry)) r'
       | None => r'
       end)
    tfs r.

Definition _compute_results (self : engine) : outcome unit * engine :=
  if negb (_results_up_to_date self) then (Returned tt, self)
  else
    match _tf self with
    | Raised e => (Raised e, self)
    | Returned term_frequencies =>
        match _idf self with
        | Raised e => (Raised e, self)
        | Returned inverse_document_frequencies =>
            (Returned tt,
             {| _dataset := _dataset self;
                _tf_idf_results :=
                  fold_left (store_term term_frequencies)
                            inverse_document_frequencies
                            (_tf_idf_results self);
                _results_up_to_date := true;
                _compute_on_add := _compute_on_add self |})
        end
    end.

Definition add_document (self : engine) (doc_name : string)
  (doc_terms : list string) : outcome unit * engine :=
  let doc_term_dict := Counter doc_terms in
  let doc := match Dict.get doc_name (_dataset self) with
             | Some d => d
             | None => _new_doc
             end in
  let doc' := {| nr_terms := nr_terms doc + Z.of_nat (List.length doc_terms);
                 term_count := merge_counts (term_count doc) doc_term_dict |} in
  let self1 := {| _dataset := Dict.set doc_name doc' (_dataset self);
                  _tf_idf_results := _tf_idf_results self;
                  _results_up_to_date := true;
                  _compute_on_add := _compute_on_add self |} in
  if _compute_on_add self1 then _compute_results self1
  else (Returned tt, self1).

(** [self._tf_idf_results[term][document]]. *)
Definition _score_term (self : engine) (term document : string)
  : outcome float :=
  match Dict.get term (_tf_idf_results self) with
  | None => Raised KeyError
  | Some ws =>
      match Dict.get document ws with
      | None => Raised KeyError
      | Some w => Returned w
      end
  end.

(** One round of the inner loop of [score_document].  The loop iterates
    the keys of [results[term]] and reads each weight back with
    [_score_term]; on a dictionary that is the weight paired with the
    key, which is what [entry] carries. *)
Definition accumulate (count : Z) (doc_sums : weights_t)
  (entry : string * float) : weights_t :=
  let doc_sums1 := if Dict.mem (fst entry) doc_sums then doc_sums
                   else Dict.set (fst entry) (of_int 0) doc_sums in
  Dict.set (fst entry)
           (fadd (Dict.get_or (of_int 0) (fst entry) doc_sums1)
                 (fmul (of_int count) (snd entry)))
           doc_sums1.

Definition doc_sums_of (results : results_t) (doc_terms : list string)
  : weights_t :=
  fold_left
    (fun sums q =>
       match Dict.get (fst q) results with
       | Some ws => fold_left (accumulate (snd q)) ws sums
       | None => sums
       end)
    (Counter doc_terms) [].

(** [sorted(items, key=itemgetter(1), reverse=True)]: a stable sort into
    descending score; an item moves behind another only when its score is
    strictly smaller. *)
Fixpoint insert_desc (x : string * float) (l : list (string * float))
  : list (string * float) :=
  match l with
  | [] => [x]
  | y :: r => if flt (snd x) (snd y) then y :: insert_desc x r else x :: l
  end.

Definition sorted_reverse (l : list (string * float))
  : list (string * float) :=
  fold_right insert_desc [] l.

(** Two scores that [<] does not separate. *)
Definition tied (s : float) (x : string * float) : bool :=
  negb (flt s (snd x)) && negb (flt (snd x) s).

(** No item is followed, anywhere later, by one with a larger score. *)
Definition descending (l : list (string * float)) : Prop :=
  StronglySorted (fun x y => flt (snd x) (snd y) = false) l.

(** [<] is a strict weak order on the scores of [l]: asymmetric, and two
    scores that a third one does not separate from either are not
    separated themselves.  ([<] on floats is one on any scores without a
    NaN.) *)
Definition strict_weak_order_on (l : list (string * float)) : Prop :=
  (forall x y, In x l -> In y l ->
               flt (snd x) (snd y) = true -> flt (snd y) (snd x) = false)
  /\ (forall x y z, In x l -> In y l -> In z l ->
                    flt (snd x) (snd z) = true ->
                    flt (snd x) (snd y) = true \/ flt (snd y) (snd z) = true).

(** [if not self._compute_on_add: self._compute_results()], the opening
    of both [score_document] and the payload step of [export]. *)
Definition compute_unless_on_add (self : engine) : outcome unit * engine :=
  if negb (_compute_on_add self) then _compute_results self
  else (Returned tt, self).

Definition score_document (self : engine) (doc_terms : list string)
  : outcome (list (string * float)) * engine :=
  let '(o, self1) := compute_unless_on_add self in
  match o with
  | Raised e => (Raised e, self1)
  | Returned _ =>
      (Returned (sorted_reverse
                   (doc_sums_of (_tf_idf_results self1) doc_terms)),
       self1)
  end.
End Engine.

(* ================================================================== *)
(** ** Storage: the file system, [pickle], [export] and [load] *)

Section Storage.
Context {PF : PyFloat} {PS : PySet}.

(** The exported dictionary: ["results"] always, ["dataset"] on request. *)
Record payload : Type := {
  p_results : option results_t;
  p_dataset : option dataset_t
}.

(** What [pickle.load] can hand back: a payload dictionary, or some other
    object (one without a [get] method). *)
Inductive pyobj : Type :=
| PyDict (p : payload)
| PyOther.

(** A file holds a pickled object or bytes that do not unpickle. *)
Inductive file : Type :=
| Pickle (o : pyobj)
| Garbage.

(** The part of the operating system the module talks to: the files, the
    directories, the paths on which the system refuses to create or open
    anything, and whether writes fail for lack of space. *)
Record world : Type := {
  files : list (string * file);
  dirs : list string;
  denied : list string;
  disk_full : bool
}.

Definition is_sep (c : ascii) : bool := Ascii.eqb c "/"%char.

(** [p[:p.rfind('/') + 1]]. *)
Fixpoint upto_last_sep (p : string) : string :=
  match p with
  | EmptyString => EmptyString
  | String c r =>
      match upto_last_sep r with
      | EmptyString => if is_sep c then String c EmptyString else EmptyString
      | h => String c h
      end
  end.

(** [p.rstrip('/')]. *)
Fixpoint rstrip_sep (p : string) : string :=
  match p with
  | EmptyString => EmptyString
  | String c r =>
      match rstrip_sep r with
      | EmptyString => if is_sep c then EmptyString else String c EmptyString
      | r' => String c r'
      end
  end.

(** [os.path.dirname] (posixpath). *)
Definition dirname (p : string) : string :=
  let head := upto_last_sep p in
  match rstrip_sep head with
  | EmptyString => head
  | stripped => stripped
  end.

Definition in_list (p : string) (l : list string) : bool :=
  existsb (String.eqb p) l.

(** [os.path.exists]. *)
Definition path_exists (w : world) (p : string) : bool :=
  match p with
  | EmptyString => false
  | _ => in_list p (dirs w) || Dict.mem p (files w)
  end.

(** The directory [d] and the directories above it, nearest first. *)
Fixpoint lineage (fuel : nat) (d : string) : list string :=
  match fuel with
  | O => []
  | Datatypes.S n =>
      match rstrip_sep d with
      | EmptyString => []
      | _ => d :: lineage n (dirname d)
      end
  end.

(** [os.makedirs(d)]: creates [d] and every missing directory above it. *)
Definition makedirs (w : world) (d : string) : outcome world :=
  let missing := filter (fun x => negb (path_exists w x))
                        (lineage (Datatypes.S (String.length d)) d) in
  match d with
  | EmptyString => Raised OSError
  | _ =>
      if path_exists w d || existsb (fun x => in_list x (denied w)) missing
      then Raised OSError
      else Returned {| files := files w;
                       dirs := missing ++ dirs w;
                       denied := denied w;
                       disk_full := disk_full w |}
  end.

Definition write_file (w : world) (p : string) (f : file) : world :=
  {| files := Dict.set p f (files w);
     dirs := dirs w;
     denied := denied w;
     disk_full := disk_full w |}.

(** [open(p, "wb")]: creates or truncates the file. *)
Definition open_wb (w : world) (p : string) : outcome world :=
  if in_list p (denied w) || in_list p (dirs w)
     || negb (in_list (dirname p) (dirs w))
  then Raised OSError
  else Returned (write_file w p Garbage).

(** [pickle.dump(obj, file)] on the file just opened at [p]. *)
Definition pickle_dump (w : world) (p : string) (obj : payload)
  : outcome world :=
  if disk_full w then Raised OSError
  else Returned (write_file w p (Pickle (PyDict obj))).

(** [open(p, "rb")]. *)
Definition open_rb (w : world) (p : string) : outcome file :=
  if in_list p (denied w) then Raised OSError
  else match Dict.get p (files w) with
       | Some f => Returned f
       | None => Raised OSError
       end.

(** [pickle.load(file)]. *)
Definition pickle_load (f : file) : outcome pyobj :=
  match f with
  | Pickle o => Returned o
  | Garbage => Raised UnpicklingError
  end.

(** [try: ... except: return False]. *)
Definition except_return_false {St : Type} (r : outcome bool * St)
  : outcome bool * St :=
  match r with
  | (Raised _, st) => (Returned false, st)
  | (Returned b, st) => (Returned b, st)
  end.

(** The directory step of [export]: [if not os.path.exists(dirname):
    os.makedirs(dirname)]. *)
Definition ensure_dir (w : world) (file_path : string) : outcome world :=
  if negb (path_exists w (dirname file_path))
  then makedirs w (dirname file_path)
  else Returned w.

(** The payload [export] prepares: ["results"] always, ["dataset"] on
    request. *)
Definition payload_of (self : engine) (include_dataset : bool) : payload :=
  {| p_results := Some (_tf_idf_results self);
     p_dataset := if include_dataset then Some (_dataset self) else None |}.

(** The [try] block of [export]. *)
Definition export_try (self : engine) (w : world) (file_path : string)
  (obj : payload) : outcome bool * (engine * world) :=
  match open_wb w file_path with
  | Raised e => (Raised e, (self, w))
  | Returned w1 =>
      match pickle_dump w1 file_path obj with
      | Raised e => (Raised e, (self, w1))
      | Returned w2 => (Returned true, (self, w2))
      end
  end.

Definition export (self : engine) (w : world) (file_path : string)
  (include_dataset : bool) : outcome bool * (engine * world) :=
  match file_path with
  | EmptyString => (Returned false, (self, w))
  | _ =>
      match ensure_dir w file_path with
      | Raised _ => (Returned false, (self, w))
      | Returned w1 =>
          let '(o, self1) := compute_unless_on_add self in
          match o with
          | Raised e => (Raised e, (self1, w1))
          | Returned _ =>
              except_return_false
                (export_try self1 w1 file_path
                   (payload_of self1 include_dataset))
          end
      end
  end.

(** The [try] block of [load]. *)
Definition load_try (self : engine) (w : world) (file_path : string)
  : outcome bool * engine :=
  match open_rb w file_path with
  | Raised e => (Raised e, self)
  | Returned f =>
      match pickle_load f with
      | Raised e => (Raised e, self)
      | Returned PyOther => (Raised AttributeError, self)
      | Returned (PyDict p) =>
          (Returned true,
           {| _dataset := match p_dataset p with
                          | Some ds => ds
                          | None => []
                          end;
              _tf_idf_results := match p_results p with
                                 | Some r => r
                                 | None => []
                                 end;
              _results_up_to_date := _results_up_to_date self;
              _compute_on_add := _compute_on_add self |})
      end
  end.

Definition load (self : engine) (w : world) (file_path : string)
  : outcome bool * engine :=
  match file_path with
  | EmptyString => (Returned false, self)
  | _ => except_return_false (load_try self w file_path)
  end.

(** *** Call sequences

    A caller drives one engine through a list of calls; an exception is
    caught by the caller, who goes on with the engine as the failed call
    left it. *)
Inductive call : Type :=
| AddDocument (doc_name : string) (doc_terms : list string)
| SetComputeOnAdd (state : pyval)
| ScoreDocument (doc_terms : list string)
| Export (file_path : string) (include_dataset : bool).

Definition step (st : engine * world) (c : call) : engine * world :=
  match c with
  | AddDocument n ts => (snd (add_document (fst st) n ts), snd st)
  | SetComputeOnAdd v => (snd (set_compute_on_add (fst st) v), snd st)
  | ScoreDocument ts => (snd (score_document (fst st) ts), snd st)
  | Export p inc => snd (export (fst st) (snd st) p inc)
  end.

Definition run (calls : list call) (st : engine * world) : engine * world :=
  fold_left step calls st.

(** The batches passed to [add_document] for [name], oldest first. *)
Fixpoint batches (name : string) (calls : list call) : list (list string) :=
  match calls with
  | [] => []
  | AddDocument n ts :: r =>
      if String.eqb name n then ts :: batches name r else batches name r
  | _ :: r => batches name r
  end.

(** *** The quantities of the specification *)

(** Number of occurrences of [t] in a batch. *)
Definition occurrences (t : string) (b : list string) : Z :=
  Z.of_nat (count_occ string_dec b t).

Definition total_occurrences (t : string) (bs : list (list string)) : Z :=
  fold_right (fun b acc => occurrences t b + acc) 0 bs.

Definition total_length (bs : list (list string)) : Z :=
  fold_right (fun b acc => Z.of_nat (List.length b) + acc) 0 bs.

Definition sum_values (d : list (string * Z)) : Z :=
  fold_right Z.add 0 (Dict.values d).

(** The sum of [g t] over the elements of [u]. *)
Definition sum_over (g : string -> Z) (u : list string) : Z :=
  fold_right (fun t acc => g t + acc) 0 u.

(** The loop of [Counter], started from a table [c]. *)
Definition count_into (c : list (string * Z)) (ts : list string)
  : list (string * Z) :=
  fold_left (fun c t => Dict.set t (Dict.get_or 0 t c + 1) c) ts c.

(** [docFreq(t)]: in how many documents [t] occurs. *)
Definition doc_freq (ds : dataset_t) (t : string) : Z :=
  Z.of_nat (List.length
              (filter (fun e => Dict.mem t (term_count (snd e))) ds)).

(** [TF(t, d) = term_count[d][t] / nr_terms[d]]. *)
Definition TF (doc : document) (t : string) : float :=
  fdiv (Dict.get_or 0 t (term_count doc)) (nr_terms doc).

(** [IDF(t) = -ln(docFreq(t) / N)]. *)
Definition IDF (ds : dataset_t) (t : string) : float :=
  fmul (of_int (-1))
       (flog (fdiv (doc_freq ds t) (Z.of_nat (List.length ds)))).

(** [results[t][d]], when there is such an entry. *)
Definition weight_at (r : results_t) (t d : string) : option float :=
  match Dict.get t r with
  | Some ws => Dict.get d ws
  | None => None
  end.

(** The sparse table the specification describes: for each document that
    contains the term, [TF * IDF]; nothing elsewhere. *)
Definition tf_idf_table (ds : dataset_t) (t d : string) : option float :=
  match Dict.get d ds with
  | Some doc =>
      if Dict.mem t (term_count doc)
      then Some (fmul (TF doc t) (IDF ds t))
      else None
  | None => None
  end.

(** Whether document [d] of the dataset holds term [t]. *)
Definition contains (ds : dataset_t) (t d : string) : bool :=
  match Dict.get d ds with
  | Some doc => Dict.mem t (term_count doc)
  | None => false
  end.

(** The assignments [results[term][document] = w] that the loops of
    [_compute_results] perform, in order. *)
Definition writes_of_term (tfs : frequencies_t) (entry : string * float)
  : list (string * string * float) :=
  flat_map
    (fun doc_entry =>
       match Dict.get (fst entry) (snd doc_entry) with
       | Some f => [(fst entry, fst doc_entry, fmul f (snd entry))]
       | None => []
       end)
    tfs.

Definition writes (tfs : frequencies_t) (idfs : list (string * float))
  : list (string * string * float) :=
  flat_map (writes_of_term tfs) idfs.

Definition apply_writes (ws : list (string * string * float))
  (r : results_t) : results_t :=
  fold_left (fun r' w => store (fst (fst w)) (snd (fst w)) (snd w) r') ws r.

(** Every entry of the results belongs to a (term, document) pair of the
    dataset. *)
Definition results_within (self : engine) : Prop :=
  forall t d, weight_at (_tf_idf_results self) t d <> None ->
              contains (_dataset self) t d = true.

(** The ways a [load] can fail: empty path, a file the system refuses to
    open, no such file, content that does not unpickle, or an unpickled
    object that is no payload dictionary. *)
Definition load_fails (w : world) (file_path : string) : Prop :=
  file_path = EmptyString
  \/ in_list file_path (denied w) = true
  \/ Dict.get file_path (files w) = None
  \/ Dict.get file_path (files w) = Some Garbage
  \/ Dict.get file_path (files w) = Some (Pickle PyOther).

(** The ways the storage can fail an [export]: empty path, a directory
    that cannot be created, a destination the system refuses or that is
    a directory, or no space left for the payload. *)
Definition export_storage_fails (w : world) (file_path : string) : Prop :=
  file_path = EmptyString
  \/ (path_exists w (dirname file_path) = false
      /\ exists e, makedirs w (dirname file_path) = Raised e)
  \/ in_list file_path (denied w) = true
  \/ in_list file_path (dirs w) = true
  \/ disk_full w = true.

(** A document as [add_document] builds it. *)
Definition wf_document (doc : document) : Prop :=
  NoDup (Dict.keys (term_count doc))
  /\ Forall (fun v => 0 < v) (Dict.values (term_count doc))
  /\ nr_terms doc = sum_values (term_count doc).

Definition wf_dataset (ds : dataset_t) : Prop :=
  NoDup (Dict.keys ds) /\ Forall (fun e => wf_document (snd e)) ds.
End Storage.

(* ================================================================== *)
(** ** Worked examples

    Concrete engines and disks, with the reals for [float] and sets that
    iterate in order of entry. *)

Section Examples.
Local Open Scope string_scope.

(** The example of the specification: [doc1 = [a, a, b]],
    [doc2 = [a, c]]. *)
Definition doc1_doc2 (compute_on_add : bool) : engine (PF := RFloat) :=
  snd (add_document (PS := FifoSet)
         (snd (add_document (PS := FifoSet) (TfIdf compute_on_add)
                 "doc1" ["a"; "a"; "b"]))
         "doc2" ["a"; "c"]).

(** A disk with one directory and nothing else. *)
Definition disk0 : world (PF := RFloat) :=
  {| files := []; dirs := ["out"]; denied := []; disk_full := false |}.

(** An engine exports its results without the dataset ... *)
Definition exporter : engine (PF := RFloat) :=
  snd (add_document (PS := FifoSet) (TfIdf true) "d0" ["x"]).

Definition disk1 : world (PF := RFloat) :=
  snd (snd (export (PS := FifoSet) exporter disk0 "out/weights.pkl" false)).

(** ... and a second, lazy engine loads them and adds a document. *)
Definition importer : engine (PF := RFloat) :=
  snd (add_document (PS := FifoSet)
         (snd (load (TfIdf false) disk1 "out/weights.pkl")) "d1" ["z"]).

(** A document added with no terms. *)
Definition empty_doc_engine : engine (PF := RFloat) :=
  snd (add_document (PS := FifoSet) (TfIdf true) "d" []).
End Examples.

(* ================================================================== *)
(** ** Further quantities used in the statements *)

Section Further.
Context {PF : PyFloat}.


(** The score of document [d] for a query: starting from 0, each distinct
    query term (in order of first occurrence) that has a weight for [d]
    adds its number of occurrences times that weight; without any such
    term there is no score. *)
Definition score_of (r : results_t) (doc_terms : list string) (d : string)
  : option float :=
  fold_left
    (fun acc q =>
       match weight_at r (fst q) d with
       | Some w =>
           Some (fadd (match acc with Some a => a | None => of_int 0 end)
                      (fmul (of_int (snd q)) w))
       | None => acc
       end)
    (Counter doc_terms) None.

(** One round of the outer loop of [score_document], for the query term
    and count [q]. *)
Definition score_round (r : results_t) (sums : weights_t)
  (q : string * Z) : weights_t :=
  match Dict.get (fst q) r with
  | Some ws => fold_left (accumulate (snd q)) ws sums
  | None => sums
  end.

(** The weights listed under every term form a dictionary. *)
Definition weights_are_dicts (r : results_t) : Prop :=
  Forall (fun e => NoDup (Dict.keys (snd e))) r.

(** Whether the path contains a ['/']. *)
Fixpoint has_sep (p : string) : bool :=
  match p with
  | EmptyString => false
  | String c r => is_sep c || has_sep r
  end.

(** [l] begins with [l0]. *)
Definition starts_with (l0 l : list string) : Prop :=
  exists rest, l = l0 ++ rest.

(** Document [doc'] holds everything document [doc] holds. *)
Definition grown_from (doc doc' : document) : Prop :=
  nr_terms doc <= nr_terms doc'
  /\ forall t, Dict.get_or 0 t (term_count doc)
               <= Dict.get_or 0 t (term_count doc')
               /\ (Dict.mem t (term_count doc) = true ->
                   Dict.mem t (term_count doc') = true).

(** Two documents with the same totals and the same count for every
    term (the order of the terms aside). *)
Definition same_counts (doc doc' : document) : Prop :=
  nr_terms doc = nr_terms doc'
  /\ forall t, Dict.get t (term_count doc) = Dict.get t (term_count doc').
End Further.

Section MoreExamples.
Local Open Scope string_scope.

(** An engine as a hand-made payload can leave it: document [d] claims no
    terms in total but counts one. *)
Definition hand_made_engine : engine (PF := RFloat) :=
  {| _dataset := [("d", {| nr_terms := 0; term_count := [("a", 1)] |})];
     _tf_idf_results := [];
     _results_up_to_date := true;
     _compute_on_add := false |}.

(** A disk on which [out/weights.pkl] holds an earlier export and no
    space is left. *)
Definition full_disk : world (PF := RFloat) :=
  {| files := files disk1;
     dirs := dirs disk1;
     denied := denied disk1;
     disk_full := true |}.
End MoreExamples.

(* ================================================================== *)
(** * Verification *)

(** ** Facts about dictionaries *)

Module DictFacts.
Section Facts.
Context {V : Type}.
Implicit Types (d : list (string * V)) (k : string) (v : V).

Lemma get_set_same k v d : Dict.get k (Dict.set k v d) = Some v.
Proof.
  induction d as [|[k' v'] r IH]; simpl.
  - now rewrite String.eqb_refl.
  - destruct (String.eqb k k') eqn:E; simpl; rewrite E; auto.
Qed.

Lemma get_set_other k k' v d :
  k <> k' -> Dict.get k' (Dict.set k v d) = Dict.get k' d.
Proof.
  intros Hne. induction d as [|[k0 v0] r IH]; simpl.
  - destruct (String.eqb_spec k' k); congruence.
  - destruct (String.eqb_spec k k0) as [->|Hk]; simpl.
    + destruct (String.eqb_spec k' k0); congruence.
    + now rewrite IH.
Qed.

Lemma set_same_value k v d : Dict.get k d = Some v -> Dict.set k v d = d.
Proof.
  induction d as [|[k0 v0] r IH]; simpl; [discriminate|].
  destruct (String.eqb_spec k k0) as [->|Hk]; intros H.
  - now inversion H.
  - now rewrite IH.
Qed.

Lemma get_None_iff k d : Dict.get k d = None <-> ~ In k (Dict.keys d).
Proof.
  induction d as [|[k0 v0] r IH]; simpl; [tauto|].
  destruct (String.eqb_spec k k0) as [->|Hk].
  - split; [discriminate | tauto].
  - rewrite IH. split; [intros H [E|E]; [congruence | tauto] | tauto].
Qed.

Lemma get_Some_In k v d : Dict.get k d = Some v -> In (k, v) d.
Proof.
  induction d as [|[k0 v0] r IH]; simpl; [discriminate|].
  destruct (String.eqb_spec k k0) as [->|Hk]; intros H.
  - inversion H; auto.
  - auto.
Qed.

Lemma In_get_NoDup k v d :
  NoDup (Dict.keys d) -> In (k, v) d -> Dict.get k d = Some v.
Proof.
  induction d as [|[k0 v0] r IH]; simpl; [tauto|].
  intros Hnd [E|Hin]; inversion Hnd as [|? ? Hnotin Hnd']; subst.
  - inversion E; subst. now rewrite String.eqb_refl.
  - destruct (String.eqb_spec k k0) as [->|Hk]; auto.
    exfalso. apply Hnotin. unfold Dict.keys.
    change k0 with (fst (k0, v)). now apply in_map.
Qed.

Lemma mem_true_iff k d : Dict.mem k d = true <-> In k (Dict.keys d).
Proof.
  unfold Dict.mem. destruct (Dict.get k d) eqn:E.
  - split; auto. intros _. apply get_Some_In in E.
    unfold Dict.keys. change k with (fst (k, v)). now apply in_map.
  - apply get_None_iff in E. split; [discriminate | tauto].
Qed.

Lemma mem_false_iff k d : Dict.mem k d = false <-> ~ In k (Dict.keys d).
Proof.
  rewrite <- mem_true_iff. destruct (Dict.mem k d); split; congruence.
Qed.

Lemma keys_set k v d :
  Dict.keys (Dict.set k v d)
  = if Dict.mem k d then Dict.keys d else Dict.keys d ++ [k].
Proof.
  unfold Dict.mem. induction d as [|[k0 v0] r IH]; simpl; auto.
  destruct (String.eqb_spec k k0) as [->|Hk]; simpl; auto.
  rewrite IH. now destruct (Dict.get k r).
Qed.

Lemma NoDup_keys_set k v d :
  NoDup (Dict.keys d) -> NoDup (Dict.keys (Dict.set k v d)).
Proof.
  intros H. rewrite keys_set. destruct (Dict.mem k d) eqn:E; auto.
  apply mem_false_iff in E.
  apply NoDup_app; auto.
  - constructor; [simpl; tauto | constructor].
  - intros x Hx [<-|[]]. tauto.
Qed.

Lemma get_comp (f : string -> V) k ks :
  Dict.get k (Dict.comp f ks)
  = if in_dec string_dec k ks then Some (f k) else None.
Proof.
  induction ks as [|k0 r IH]; simpl; auto.
  destruct (String.eqb_spec k k0) as [->|Hk].
  - now destruct (string_dec k0 k0).
  - rewrite IH. destruct (string_dec k0 k); [congruence|].
    now destruct (in_dec string_dec k r).
Qed.

Lemma keys_comp (f : string -> V) ks : Dict.keys (Dict.comp f ks) = ks.
Proof.
  unfold Dict.keys, Dict.comp. rewrite map_map. simpl. apply map_id.
Qed.

Lemma get_or_set_same dflt k v d :
  Dict.get_or dflt k (Dict.set k v d) = v.
Proof. unfold Dict.get_or. now rewrite get_set_same. Qed.

Lemma get_or_set_other dflt k k' v d :
  k <> k' -> Dict.get_or dflt k' (Dict.set k v d) = Dict.get_or dflt k' d.
Proof. intros H. unfold Dict.get_or. now rewrite get_set_other. Qed.
End Facts.

Lemma keys_traverse {A B : Type} (f : string -> A -> outcome B)
  (d : list (string * A)) (d' : list (string * B)) :
  Dict.traverse f d = Returned d' -> Dict.keys d' = Dict.keys d.
Proof.
  revert d'. induction d as [|[k a] r IH]; simpl; intros d' H.
  - now inversion H.
  - destruct (f k a); [|discriminate].
    destruct (Dict.traverse f r); [|discriminate].
    inversion H; subst. simpl. f_equal. now apply IH.
Qed.

Lemma get_traverse {A B : Type} (f : string -> A -> outcome B)
  (d : list (string * A)) (d' : list (string * B)) (k : string) :
  Dict.traverse f d = Returned d' ->
  match Dict.get k d with
  | Some a => exists b, f k a = Returned b /\ Dict.get k d' = Some b
  | None => Dict.get k d' = None
  end.
Proof.
  revert d'. induction d as [|[k0 a0] r IH]; simpl; intros d' H.
  - now inversion H.
  - destruct (f k0 a0) eqn:Ef; [|discriminate].
    destruct (Dict.traverse f r) eqn:Et; [|discriminate].
    inversion H; subst. simpl.
    destruct (String.eqb_spec k k0) as [->|Hk]; [eauto | now apply IH].
Qed.

Lemma traverse_returns {A B : Type} (f : string -> A -> outcome B)
  (d : list (string * A)) :
  (forall k a, In (k, a) d -> exists b, f k a = Returned b) ->
  exists d', Dict.traverse f d = Returned d'.
Proof.
  induction d as [|[k a] r IH]; simpl; intros H; eauto.
  destruct (H k a) as [b Hb]; auto. rewrite Hb.
  destruct IH as [r' Hr']; [intros; apply H; auto|].
  rewrite Hr'. eauto.
Qed.

Lemma traverse_raises {A B : Type} (f : string -> A -> outcome B)
  (d : list (string * A)) (e : exn) :
  Dict.traverse f d = Raised e -> exists k a, In (k, a) d /\ f k a = Raised e.
Proof.
  induction d as [|[k a] r IH]; simpl; [discriminate|].
  destruct (f k a) eqn:Ef.
  - destruct (Dict.traverse f r); [discriminate|].
    intros H; inversion H; subst.
    destruct IH as (k' & a' & Hin & Hf); eauto.
  - intros H; inversion H; subst. eauto.
Qed.
End DictFacts.

(** ** Frame properties of the methods *)

Section Frames.
Context {PF : PyFloat} {PS : PySet}.

Lemma compute_results_dataset (self : engine) :
  _dataset (snd (_compute_results self)) = _dataset self.
Proof.
  unfold _compute_results.
  destruct (_results_up_to_date self); simpl; auto.
  destruct (_tf self); simpl; auto.
  destruct (_idf self); simpl; auto.
Qed.

Lemma compute_results_compute_on_add (self : engine) :
  _compute_on_add (snd (_compute_results self)) = _compute_on_add self.
Proof.
  unfold _compute_results.
  destruct (_results_up_to_date self); simpl; auto.
  destruct (_tf self); simpl; auto.
  destruct (_idf self); simpl; auto.
Qed.

Lemma compute_results_raised (self : engine) (e : exn) :
  fst (_compute_results self) = Raised e -> snd (_compute_results self) = self.
Proof.
  unfold _compute_results.
  destruct (_results_up_to_date self); simpl; auto.
  destruct (_tf self); simpl; auto.
  destruct (_idf self); simpl; auto. discriminate.
Qed.

Lemma compute_unless_on_add_dataset (self : engine) :
  _dataset (snd (compute_unless_on_add self)) = _dataset self.
Proof.
  unfold compute_unless_on_add.
  destruct (_compute_on_add self); simpl; auto using compute_results_dataset.
Qed.

Lemma score_document_state (self : engine) (doc_terms : list string) :
  snd (score_document self doc_terms) = snd (compute_unless_on_add self).
Proof.
  unfold score_document.
  destruct (compute_unless_on_add self) as [[u|e] s]; reflexivity.
Qed.

Lemma score_document_dataset (self : engine) (doc_terms : list string) :
  _dataset (snd (score_document self doc_terms)) = _dataset self.
Proof.
  rewrite score_document_state. apply compute_unless_on_add_dataset.
Qed.

(** C10.  [score_document] leaves the dataset as it found it, for every
    engine state and every query, whether it returns or raises and whether
    or not it recomputes the results first: the engine it leaves differs
    from the one it found at most in what [_compute_results] assigns,
    [_tf_idf_results] and [_results_up_to_date]. *)
Theorem score_document_preserves_dataset
  (self : engine) (doc_terms : list string) :
  _dataset (snd (score_document self doc_terms)) = _dataset self
  /\ _compute_on_add (snd (score_document self doc_terms))
     = _compute_on_add self.
Proof.
  split; [apply score_document_dataset|].
  rewrite score_document_state. unfold compute_unless_on_add.
  destruct (_compute_on_add self) eqn:E; simpl; auto.
  now rewrite compute_results_compute_on_add.
Qed.
End Frames.

(** ** The ranking step of [score_document] *)

Section Ranking.
Context {PF : PyFloat}.
Implicit Types (x y : string * float) (l : list (string * float)).

Lemma insert_desc_perm x l : Permutation (x :: l) (insert_desc x l).
Proof.
  induction l as [|y r IH]; simpl; auto.
  destruct (flt (snd x) (snd y)); auto.
  rewrite perm_swap. now constructor.
Qed.

Lemma sorted_reverse_perm l : Permutation l (sorted_reverse l).
Proof.
  induction l as [|x r IH]; simpl; auto.
  rewrite <- insert_desc_perm. now constructor.
Qed.

Lemma strict_weak_order_on_incl l l' :
  strict_weak_order_on l -> incl l' l -> strict_weak_order_on l'.
Proof.
  intros [Hasym Hneg] Hincl. split.
  - intros x y Hx Hy. apply Hasym; auto.
  - intros x y z Hx Hy Hz. apply Hneg; auto.
Qed.

Lemma insert_desc_descending x l :
  strict_weak_order_on (x :: l) ->
  descending l -> descending (insert_desc x l).
Proof.
  unfold descending.
  induction l as [|y r IH]; simpl; intros Hswo Hs.
  - repeat constructor.
  - apply StronglySorted_inv in Hs. destruct Hs as [Hr Hy].
    destruct (flt (snd x) (snd y)) eqn:E.
    + constructor.
      * apply IH; auto.
        apply (strict_weak_order_on_incl _ _ Hswo).
        intros z [<-|Hz]; simpl; auto.
      * eapply Permutation_Forall; [apply insert_desc_perm|].
        constructor; auto.
        destruct Hswo as [Hasym _]. apply Hasym; simpl; auto.
    + constructor; [constructor; auto|].
      constructor; auto.
      rewrite Forall_forall in *. intros z Hz.
      destruct (flt (snd x) (snd z)) eqn:Ez; auto.
      destruct Hswo as [_ Hneg].
      destruct (Hneg x y z) as [H|H]; simpl; auto; [congruence|].
      rewrite (Hy z Hz) in H. discriminate.
Qed.

Lemma sorted_reverse_descending l :
  strict_weak_order_on l -> descending (sorted_reverse l).
Proof.
  induction l as [|x r IH]; simpl; intros Hswo.
  - constructor.
  - apply insert_desc_descending.
    + apply (strict_weak_order_on_incl _ _ Hswo).
      intros z [<-|Hz]; [now left | right].
      apply (Permutation_in _ (Permutation_sym (sorted_reverse_perm r)) Hz).
    + apply IH. apply (strict_weak_order_on_incl _ _ Hswo).
      intros z Hz. now right.
Qed.

Lemma filter_tied_insert_desc (s : string * float) x l :
  strict_weak_order_on (s :: x :: l) ->
  filter (tied (snd s)) (insert_desc x l) = filter (tied (snd s)) (x :: l).
Proof.
  induction l as [|y r IH]; intros Hswo; auto.
  simpl insert_desc. destruct (flt (snd x) (snd y)) eqn:E; auto.
  change (filter (tied (snd s)) (y :: insert_desc x r))
    with (if tied (snd s) y
          then y :: filter (tied (snd s)) (insert_desc x r)
          else filter (tied (snd s)) (insert_desc x r)).
  rewrite IH.
  2:{ apply (strict_weak_order_on_incl _ _ Hswo).
      intros z [<-|[<-|Hz]]; simpl; auto. }
  simpl.
  destruct (tied (snd s) x) eqn:Tx, (tied (snd s) y) eqn:Ty; auto.
  exfalso. unfold tied in Tx, Ty.
  apply andb_true_iff in Tx, Ty.
  rewrite !negb_true_iff in Tx, Ty.
  destruct Hswo as [_ Hneg].
  destruct (Hneg x s y) as [H|H]; simpl; auto; intuition congruence.
Qed.

(** Stability: among the items whose score ties with that of [s], the
    sort keeps the order of its input. *)
Lemma sorted_reverse_stable (s : string * float) l :
  strict_weak_order_on (s :: l) ->
  filter (tied (snd s)) (sorted_reverse l) = filter (tied (snd s)) l.
Proof.
  induction l as [|x r IH]; intros Hswo; auto.
  simpl sorted_reverse. rewrite filter_tied_insert_desc.
  - simpl. rewrite IH; auto.
    apply (strict_weak_order_on_incl _ _ Hswo).
    intros z [<-|Hz]; simpl; auto.
  - apply (strict_weak_order_on_incl _ _ Hswo).
    intros z [<-|[<-|Hz]]; simpl; auto.
    right. right.
    apply (Permutation_in _ (Permutation_sym (sorted_reverse_perm r)) Hz).
Qed.
End Ranking.

(** ** Counting: [Counter] and the key-wise sum of two count tables *)

Section Counting.
Context {PS : PySet}.
Implicit Types (a b c d : list (string * Z)) (t k : string).

Lemma sum_over_perm g u u' :
  Permutation u u' -> sum_over g u = sum_over g u'.
Proof. induction 1; simpl; lia. Qed.

Lemma sum_over_ext g g' u :
  (forall t, In t u -> g t = g' t) -> sum_over g u = sum_over g' u.
Proof.
  induction u as [|t r IH]; simpl; intros H; auto.
  rewrite H, IH; auto.
Qed.

Lemma sum_over_add g g' u :
  sum_over (fun t => g t + g' t) u = sum_over g u + sum_over g' u.
Proof. induction u; simpl; lia. Qed.

Lemma sum_values_comp g u : sum_values (Dict.comp g u) = sum_over g u.
Proof.
  unfold sum_values, Dict.values, Dict.comp.
  induction u; simpl; auto. now f_equal.
Qed.

Lemma sum_over_get_or d u :
  NoDup (Dict.keys d) -> NoDup u -> incl (Dict.keys d) u ->
  sum_over (fun t => Dict.get_or 0 t d) u = sum_values d.
Proof.
  revert u. induction d as [|[k v] r IH]; intros u Hd Hu Hincl.
  - unfold sum_values. simpl. induction u; simpl; auto.
    rewrite IHu; auto. now inversion Hu. intros x [].
  - simpl in Hd. inversion Hd as [|? ? Hk Hr]; subst.
    assert (Hin : In k u) by (apply Hincl; now left).
    destruct (in_split _ _ Hin) as (u1 & u2 & ->).
    assert (Hp : Permutation (u1 ++ k :: u2) (k :: u1 ++ u2))
      by (symmetry; apply Permutation_middle).
    rewrite (sum_over_perm _ _ _ Hp).
    apply (Permutation_NoDup Hp) in Hu.
    inversion Hu as [|? ? Hk' Hu']; subst.
    change (sum_values ((k, v) :: r)) with (v + sum_values r).
    simpl. unfold Dict.get_or at 1. simpl. rewrite String.eqb_refl.
    f_equal.
    rewrite <- (IH (u1 ++ u2)); auto.
    + apply sum_over_ext. intros t Ht. unfold Dict.get_or. simpl.
      destruct (String.eqb_spec t k); congruence.
    + intros x Hx.
      assert (Hx' : In x (k :: u1 ++ u2)).
      { apply (Permutation_in _ Hp). apply Hincl. now right. }
      destruct Hx' as [<-|]; [contradiction | assumption].
Qed.

Lemma get_or_absent d t : ~ In t (Dict.keys d) -> Dict.get_or 0 t d = 0.
Proof.
  intros H. apply DictFacts.get_None_iff in H.
  unfold Dict.get_or. now rewrite H.
Qed.

Lemma get_positive d t v :
  Forall (fun x => 0 < x) (Dict.values d) -> Dict.get t d = Some v -> 0 < v.
Proof.
  intros Hpos Hget. apply DictFacts.get_Some_In in Hget.
  rewrite Forall_forall in Hpos. apply Hpos.
  unfold Dict.values. change v with (snd (t, v)). now apply in_map.
Qed.

Lemma get_or_nonneg d t :
  Forall (fun x => 0 < x) (Dict.values d) -> 0 <= Dict.get_or 0 t d.
Proof.
  intros Hpos. unfold Dict.get_or. destruct (Dict.get t d) eqn:E; [|lia].
  apply (get_positive _ _ _ Hpos) in E. lia.
Qed.

Lemma get_or_positive d t :
  Forall (fun x => 0 < x) (Dict.values d) ->
  In t (Dict.keys d) -> 0 < Dict.get_or 0 t d.
Proof.
  intros Hpos Hin. unfold Dict.get_or.
  destruct (Dict.get t d) eqn:E.
  - eauto using get_positive.
  - apply DictFacts.get_None_iff in E. contradiction.
Qed.

(** *** The table built by [set(a) | set(b)] and the comprehension *)

Lemma in_set_union a b t :
  In t (set_union (Dict.keys a) (Dict.keys b))
  <-> In t (Dict.keys a) \/ In t (Dict.keys b).
Proof.
  unfold set_union. rewrite <- in_app_iff. split; intros H.
  - apply (Permutation_in _ (Permutation_sym (set_iter_perm _))) in H.
    now apply nodup_In in H.
  - apply (Permutation_in _ (set_iter_perm _)). now apply nodup_In.
Qed.

Lemma NoDup_set_union a b : NoDup (set_union (Dict.keys a) (Dict.keys b)).
Proof.
  unfold set_union. eapply Permutation_NoDup; [apply set_iter_perm|].
  apply NoDup_nodup.
Qed.

Lemma keys_merge_counts a b :
  Dict.keys (merge_counts a b) = set_union (Dict.keys a) (Dict.keys b).
Proof. apply DictFacts.keys_comp. Qed.

Lemma get_merge_counts a b t :
  Dict.get t (merge_counts a b)
  = if Dict.mem t a || Dict.mem t b
    then Some (Dict.get_or 0 t a + Dict.get_or 0 t b)
    else None.
Proof.
  unfold merge_counts. rewrite DictFacts.get_comp.
  destruct (in_dec string_dec t _) as [Hin|Hin];
    rewrite in_set_union in Hin.
  - rewrite <- !DictFacts.mem_true_iff in Hin.
    apply orb_true_iff in Hin. now rewrite Hin.
  - rewrite <- !DictFacts.mem_true_iff in Hin.
    rewrite <- orb_true_iff in Hin.
    now destruct (Dict.mem t a || Dict.mem t b).
Qed.

Lemma get_or_merge_counts a b t :
  Dict.get_or 0 t (merge_counts a b)
  = Dict.get_or 0 t a + Dict.get_or 0 t b.
Proof.
  unfold Dict.get_or at 1. rewrite get_merge_counts.
  destruct (Dict.mem t a) eqn:Ea, (Dict.mem t b) eqn:Eb; simpl; auto.
  apply DictFacts.mem_false_iff in Ea, Eb.
  rewrite !get_or_absent by assumption. reflexivity.
Qed.

Lemma mem_merge_counts a b t :
  Dict.mem t (merge_counts a b) = Dict.mem t a || Dict.mem t b.
Proof.
  unfold Dict.mem at 1. rewrite get_merge_counts.
  now destruct (Dict.mem t a || Dict.mem t b).
Qed.

Lemma merge_counts_positive a b :
  Forall (fun x => 0 < x) (Dict.values a) ->
  Forall (fun x => 0 < x) (Dict.values b) ->
  Forall (fun x => 0 < x) (Dict.values (merge_counts a b)).
Proof.
  intros Ha Hb. unfold merge_counts, Dict.values, Dict.comp.
  rewrite map_map. simpl. rewrite Forall_map, Forall_forall.
  intros t Ht. apply in_set_union in Ht.
  pose proof (get_or_nonneg a t Ha). pose proof (get_or_nonneg b t Hb).
  destruct Ht as [Ht|Ht];
    [pose proof (get_or_positive a t Ha Ht)
    |pose proof (get_or_positive b t Hb Ht)]; lia.
Qed.

Lemma sum_values_merge_counts a b :
  NoDup (Dict.keys a) -> NoDup (Dict.keys b) ->
  sum_values (merge_counts a b) = sum_values a + sum_values b.
Proof.
  intros Ha Hb. unfold merge_counts.
  rewrite sum_values_comp, sum_over_add.
  rewrite !sum_over_get_or; auto using NoDup_set_union.
  - intros t Ht. apply in_set_union. now right.
  - intros t Ht. apply in_set_union. now left.
Qed.

(** *** [Counter] *)

Lemma occurrences_cons t x ts :
  occurrences t (x :: ts)
  = (if String.eqb t x then 1 else 0) + occurrences t ts.
Proof.
  unfold occurrences. simpl.
  destruct (string_dec x t) as [->|Hne].
  - rewrite String.eqb_refl. lia.
  - destruct (String.eqb_spec t x); [congruence | lia].
Qed.

Lemma get_or_count_into c ts t :
  Dict.get_or 0 t (count_into c ts) = Dict.get_or 0 t c + occurrences t ts.
Proof.
  revert c. induction ts as [|x r IH]; intros c.
  - unfold occurrences. simpl. lia.
  - unfold count_into in *. simpl fold_left. rewrite IH, occurrences_cons.
    destruct (String.eqb_spec t x) as [->|Hne].
    + rewrite DictFacts.get_or_set_same. lia.
    + rewrite DictFacts.get_or_set_other by congruence. lia.
Qed.

Lemma NoDup_count_into c ts :
  NoDup (Dict.keys c) -> NoDup (Dict.keys (count_into c ts)).
Proof.
  revert c. induction ts as [|x r IH]; intros c H; auto.
  apply IH. now apply DictFacts.NoDup_keys_set.
Qed.

Lemma values_set_Forall (P : Z -> Prop) k v d :
  Forall P (Dict.values d) -> P v -> Forall P (Dict.values (Dict.set k v d)).
Proof.
  intros Hd Hv. induction d as [|[k0 v0] r IH]; simpl.
  - repeat constructor; auto.
  - inversion Hd; subst.
    destruct (String.eqb k k0); constructor; auto.
Qed.

Lemma count_into_positive c ts :
  Forall (fun x => 0 < x) (Dict.values c) ->
  Forall (fun x => 0 < x) (Dict.values (count_into c ts)).
Proof.
  revert c. induction ts as [|x r IH]; intros c H; auto.
  apply IH. apply values_set_Forall; auto.
  pose proof (get_or_nonneg c x H). lia.
Qed.

Lemma sum_values_set k v d :
  sum_values (Dict.set k v d) = sum_values d - Dict.get_or 0 k d + v.
Proof.
  unfold sum_values, Dict.get_or.
  induction d as [|[k0 v0] r IH]; simpl; [lia|].
  destruct (String.eqb k k0); simpl; lia.
Qed.

Lemma sum_values_count_into c ts :
  sum_values (count_into c ts) = sum_values c + Z.of_nat (List.length ts).
Proof.
  revert c. induction ts as [|x r IH]; intros c.
  - simpl. lia.
  - unfold count_into in *. simpl fold_left. rewrite IH, sum_values_set.
    simpl List.length. lia.
Qed.

Lemma get_or_Counter ts t : Dict.get_or 0 t (Counter ts) = occurrences t ts.
Proof. apply (get_or_count_into [] ts t). Qed.

Lemma NoDup_Counter ts : NoDup (Dict.keys (Counter ts)).
Proof. apply (NoDup_count_into [] ts). constructor. Qed.

Lemma Counter_positive ts :
  Forall (fun x => 0 < x) (Dict.values (Counter ts)).
Proof. apply (count_into_positive [] ts). constructor. Qed.

Lemma sum_values_Counter ts :
  sum_values (Counter ts) = Z.of_nat (List.length ts).
Proof. apply (sum_values_count_into [] ts). Qed.
End Counting.

(** ** The document store: what [add_document] keeps *)

Section DocumentStore.
Context {PF : PyFloat} {PS : PySet}.

(** The aggregate [add_document] writes back for [doc_name]. *)
Lemma add_document_dataset (self : engine) (n : string) (ts : list string) :
  _dataset (snd (add_document self n ts))
  = Dict.set n
      {| nr_terms :=
           nr_terms (match Dict.get n (_dataset self) with
                     | Some d => d
                     | None => _new_doc
                     end) + Z.of_nat (List.length ts);
         term_count :=
           merge_counts
             (term_count (match Dict.get n (_dataset self) with
                          | Some d => d
                          | None => _new_doc
                          end))
             (Counter ts) |}
      (_dataset self).
Proof.
  unfold add_document. simpl.
  destruct (_compute_on_add self); simpl; auto.
  now rewrite compute_results_dataset.
Qed.

Lemma set_compute_on_add_dataset (self : engine) (v : pyval) :
  _dataset (snd (set_compute_on_add self v)) = _dataset self.
Proof. destruct v; reflexivity. Qed.

Lemma export_dataset (self : engine) (w : world) (p : string) (inc : bool) :
  _dataset (fst (snd (export self w p inc))) = _dataset self.
Proof.
  unfold export. destruct p as [|c p']; auto.
  destruct (ensure_dir w (String c p')); auto.
  pose proof (compute_unless_on_add_dataset self) as H.
  destruct (compute_unless_on_add self) as [o s]. simpl in H.
  destruct o; auto.
  unfold export_try.
  destruct (open_wb a (String c p')); auto.
  destruct (pickle_dump a1 (String c p') _); auto.
Qed.

Lemma step_dataset (st : engine * world) (c : call) :
  _dataset (fst (step st c))
  = match c with
    | AddDocument n ts => _dataset (snd (add_document (fst st) n ts))
    | _ => _dataset (fst st)
    end.
Proof.
  destruct c; simpl; auto using set_compute_on_add_dataset,
    score_document_dataset, export_dataset.
Qed.

Lemma run_snoc (cs : list call) (c : call) (st : engine * world) :
  run (cs ++ [c]) st = step (run cs st) c.
Proof. unfold run. now rewrite fold_left_app. Qed.

(** *** Well-formedness is an invariant *)

Lemma wf_new_doc : wf_document _new_doc.
Proof. repeat split; simpl; constructor. Qed.

Lemma wf_document_merge (doc : document) (ts : list string) :
  wf_document doc ->
  wf_document
    {| nr_terms := nr_terms doc + Z.of_nat (List.length ts);
       term_count := merge_counts (term_count doc) (Counter ts) |}.
Proof.
  intros (Hnd & Hpos & Hsum). repeat split; simpl.
  - rewrite keys_merge_counts. apply NoDup_set_union.
  - apply merge_counts_positive; auto using Counter_positive.
  - rewrite sum_values_merge_counts by auto using NoDup_Counter.
    rewrite sum_values_Counter. lia.
Qed.

Lemma Forall_set {V : Type} (P : V -> Prop) (k : string) (v : V)
  (d : list (string * V)) :
  Forall (fun e => P (snd e)) d -> P v ->
  Forall (fun e => P (snd e)) (Dict.set k v d).
Proof.
  intros Hd Hv. induction d as [|[k0 v0] r IH]; simpl.
  - repeat constructor; auto.
  - inversion Hd; subst. destruct (String.eqb k k0); constructor; auto.
Qed.

Lemma wf_dataset_get (ds : dataset_t) (n : string) (doc : document) :
  wf_dataset ds -> Dict.get n ds = Some doc -> wf_document doc.
Proof.
  intros [_ Hall] Hget. apply DictFacts.get_Some_In in Hget.
  rewrite Forall_forall in Hall. apply (Hall _ Hget).
Qed.

Lemma wf_dataset_add_document (self : engine) (n : string)
  (ts : list string) :
  wf_dataset (_dataset self) ->
  wf_dataset (_dataset (snd (add_document self n ts))).
Proof.
  intros Hwf. rewrite add_document_dataset. split.
  - apply DictFacts.NoDup_keys_set, Hwf.
  - apply Forall_set; [apply Hwf|].
    apply wf_document_merge.
    destruct (Dict.get n (_dataset self)) eqn:E;
      eauto using wf_dataset_get, wf_new_doc.
Qed.

Lemma wf_dataset_step (st : engine * world) (c : call) :
  wf_dataset (_dataset (fst st)) -> wf_dataset (_dataset (fst (step st c))).
Proof.
  intros H. rewrite step_dataset.
  destruct c; auto using wf_dataset_add_document.
Qed.

Lemma wf_dataset_run (cs : list call) (st : engine * world) :
  wf_dataset (_dataset (fst st)) -> wf_dataset (_dataset (fst (run cs st))).
Proof.
  revert st. induction cs as [|c r IH]; intros st H; auto.
  apply IH. now apply wf_dataset_step.
Qed.

Lemma wf_dataset_empty : wf_dataset [].
Proof. split; constructor. Qed.

(** *** The aggregate is the sum of the batches *)

Lemma batches_snoc (name : string) (cs : list call) (c : call) :
  batches name (cs ++ [c])
  = batches name cs
    ++ match c with
       | AddDocument n ts => if String.eqb name n then [ts] else []
       | _ => []
       end.
Proof.
  induction cs as [|c0 r IH]; simpl.
  - destruct c; auto.
  - destruct c0; auto. destruct (String.eqb name doc_name); simpl;
      now rewrite IH.
Qed.

Lemma total_length_app (bs bs' : list (list string)) :
  total_length (bs ++ bs') = total_length bs + total_length bs'.
Proof. induction bs; simpl; lia. Qed.

Lemma total_occurrences_app (t : string) (bs bs' : list (list string)) :
  total_occurrences t (bs ++ bs')
  = total_occurrences t bs + total_occurrences t bs'.
Proof. induction bs; simpl; lia. Qed.

(** What the dataset records about [name] after the calls [cs]. *)
Lemma aggregate_run (b : bool) (w : world) (cs : list call) (name : string) :
  match Dict.get name (_dataset (fst (run cs (TfIdf b, w)))) with
  | None => batches name cs = []
  | Some doc =>
      batches name cs <> []
      /\ nr_terms doc = total_length (batches name cs)
      /\ forall t, Dict.get_or 0 t (term_count doc)
                   = total_occurrences t (batches name cs)
  end.
Proof.
  induction cs as [|c cs IH] using rev_ind; [reflexivity|].
  rewrite run_snoc, step_dataset, batches_snoc.
  destruct c as [n ts| | |]; try (rewrite app_nil_r; exact IH).
  rewrite add_document_dataset.
  set (ds := _dataset (fst (run cs (TfIdf b, w)))) in *.
  destruct (String.eqb_spec name n) as [->|Hne].
  - rewrite DictFacts.get_set_same. simpl.
    rewrite total_length_app. simpl.
    split; [intros H; now apply app_eq_nil in H|].
    destruct (Dict.get n ds) as [doc|].
    + destruct IH as (_ & Hn & Ht). split; [lia|].
      intros t. rewrite get_or_merge_counts, total_occurrences_app.
      rewrite Ht, get_or_Counter. simpl. lia.
    + rewrite IH. simpl. split; [lia|].
      intros t. rewrite get_or_merge_counts, get_or_Counter.
      unfold Dict.get_or. simpl. lia.
  - rewrite DictFacts.get_set_other by congruence.
    rewrite app_nil_r. exact IH.
Qed.

(** C5.  Merge invariant.  Start from a fresh engine and make any calls;
    take any document name.  The dataset has a document of that name
    exactly when some [add_document] call named it.  Its [nr_terms] is
    then the sum of the lengths of the batches added under that name,
    [term_count] holds for every term the total number of its occurrences
    across those batches (a term that never occurred has no entry), and
    [nr_terms == sum(term_count.values())]. *)
Theorem merge_invariant (compute_on_add : bool) (w : world)
  (calls : list call) (name : string) :
  match Dict.get name
          (_dataset (fst (run calls (TfIdf compute_on_add, w)))) with
  | None => batches name calls = []
  | Some doc =>
      batches name calls <> []
      /\ nr_terms doc = total_length (batches name calls)
      /\ (forall t,
            Dict.get t (term_count doc)
            = if total_occurrences t (batches name calls) =? 0
              then None
              else Some (total_occurrences t (batches name calls)))
      /\ nr_terms doc = sum_values (term_count doc)
  end.
Proof.
  pose proof (aggregate_run compute_on_add w calls name) as Hagg.
  pose proof (wf_dataset_run calls (TfIdf compute_on_add, w)
                wf_dataset_empty) as Hwf.
  destruct (Dict.get name _) as [doc|] eqn:Hget; [|exact Hagg].
  destruct Hagg as (Hne & Hn & Ht).
  destruct (wf_dataset_get _ _ _ Hwf Hget) as (Hnd & Hpos & Hsum).
  repeat split; auto.
  intros t. specialize (Ht t). unfold Dict.get_or in Ht.
  destruct (Dict.get t (term_count doc)) as [v|] eqn:Ev.
  - pose proof (get_positive _ _ _ Hpos Ev). rewrite <- Ht.
    destruct (Z.eqb_spec v 0); [lia | reflexivity].
  - now rewrite <- Ht.
Qed.
End DocumentStore.

(** ** The frequency engine: [_tf] and [_idf] *)

Section Frequencies.
Context {PF : PyFloat} {PS : PySet}.

(** *** Term frequency *)

Lemma frequencies_return (n : Z) (tc : list (string * Z)) :
  n <> 0 \/ tc = [] ->
  exists fs, Dict.traverse (fun _ c => true_div c n) tc = Returned fs.
Proof.
  intros [Hn | ->]; [|simpl; eauto].
  apply DictFacts.traverse_returns. intros k c _.
  unfold true_div. destruct (Z.eqb_spec n 0); [contradiction | eauto].
Qed.

Lemma frequencies_raise (tc : list (string * Z)) :
  tc <> [] ->
  Dict.traverse (fun _ c => true_div c 0) tc = Raised ZeroDivisionError.
Proof. destruct tc as [|[k c] r]; [congruence | reflexivity]. Qed.

(** [_tf] divides only for the terms a document holds: it raises exactly
    when some document has [nr_terms == 0] and a non-empty [term_count]. *)
Lemma tf_raises_iff (self : engine) :
  (exists e, _tf self = Raised e)
  <-> exists name doc, In (name, doc) (_dataset self)
                       /\ nr_terms doc = 0 /\ term_count doc <> [].
Proof.
  unfold _tf. split.
  - intros [e He]. apply DictFacts.traverse_raises in He.
    destruct He as (name & doc & Hin & Hr). exists name, doc.
    split; auto.
    destruct (Z.eq_dec (nr_terms doc) 0) as [Hz|Hz].
    + split; auto. intros Hnil.
      destruct (frequencies_return (nr_terms doc) (term_count doc))
        as [fs Hfs]; auto. congruence.
    + destruct (frequencies_return (nr_terms doc) (term_count doc))
        as [fs Hfs]; auto. congruence.
  - intros (name & doc & Hin & Hz & Hne).
    destruct (Dict.traverse _ (_dataset self)) as [tfs|e] eqn:E; eauto.
    exfalso.
    assert (Hall : forall k a, In (k, a) (_dataset self) ->
              exists fs, Dict.traverse (fun _ c => true_div c (nr_terms a))
                           (term_count a) = Returned fs).
    { clear name doc Hin Hz Hne. revert tfs E.
      induction (_dataset self) as [|[k0 a0] r IH]; simpl; intros tfs E k a.
      - tauto.
      - destruct (Dict.traverse _ (term_count a0)) eqn:E0; [|discriminate].
        destruct (Dict.traverse _ r) eqn:Er; [|discriminate].
        intros [H|H]; [inversion H; subst; eauto | eapply IH; eauto]. }
    destruct (Hall _ _ Hin) as [fs Hfs].
    rewrite Hz, frequencies_raise in Hfs by assumption. discriminate.
Qed.

Lemma tf_raises_ZeroDivisionError (self : engine) (e : exn) :
  _tf self = Raised e -> e = ZeroDivisionError.
Proof.
  unfold _tf. intros H. apply DictFacts.traverse_raises in H.
  destruct H as (name & doc & _ & H).
  apply DictFacts.traverse_raises in H.
  destruct H as (t & c & _ & H). unfold true_div in H.
  destruct (nr_terms doc =? 0); congruence.
Qed.

Lemma sum_positive_zero (d : list (string * Z)) :
  Forall (fun v => 0 < v) (Dict.values d) -> sum_values d = 0 -> d = [].
Proof.
  destruct d as [|[k v] r]; auto. intros Hpos Hsum. exfalso.
  unfold sum_values in Hsum. simpl in *. inversion Hpos; subst.
  assert (0 <= fold_right Z.add 0 (Dict.values r)).
  { clear - H2. induction H2; simpl; lia. }
  lia.
Qed.

Lemma wf_document_divisible (doc : document) :
  wf_document doc -> nr_terms doc <> 0 \/ term_count doc = [].
Proof.
  intros (_ & Hpos & Hsum).
  destruct (Z.eq_dec (nr_terms doc) 0) as [Hz|]; auto.
  right. apply sum_positive_zero; auto. congruence.
Qed.

Lemma tf_returns (self : engine) :
  (forall name doc, In (name, doc) (_dataset self) ->
                    nr_terms doc <> 0 \/ term_count doc = []) ->
  exists tfs, _tf self = Returned tfs.
Proof.
  intros H. destruct (_tf self) as [tfs|e] eqn:E; eauto.
  exfalso. destruct (proj1 (tf_raises_iff self)) as (n & d & Hin & Hz & Hne).
  - eauto.
  - destruct (H _ _ Hin); contradiction.
Qed.

Lemma tf_returns_wf (self : engine) :
  wf_dataset (_dataset self) -> exists tfs, _tf self = Returned tfs.
Proof.
  intros [_ Hall]. apply tf_returns. intros name doc Hin.
  apply wf_document_divisible.
  rewrite Forall_forall in Hall. apply (Hall _ Hin).
Qed.

(** The table [_tf] returns: [TF] for every term of every document. *)
Lemma tf_get (self : engine) (tfs : frequencies_t) (name : string) :
  _tf self = Returned tfs ->
  match Dict.get name (_dataset self) with
  | None => Dict.get name tfs = None
  | Some doc =>
      exists fs, Dict.get name tfs = Some fs
                 /\ forall t, Dict.get t fs
                              = if Dict.mem t (term_count doc)
                                then Some (TF doc t) else None
  end.
Proof.
  intros H. apply (DictFacts.get_traverse _ _ _ name) in H.
  destruct (Dict.get name (_dataset self)) as [doc|]; auto.
  destruct H as (fs & Hfs & Hget). exists fs. split; auto.
  intros t. apply (DictFacts.get_traverse _ _ _ t) in Hfs.
  unfold Dict.mem, TF, Dict.get_or.
  destruct (Dict.get t (term_count doc)) as [c|]; auto.
  destruct Hfs as (q & Hq & ->). unfold true_div in Hq.
  destruct (nr_terms doc =? 0); congruence.
Qed.

Lemma tf_keys (self : engine) (tfs : frequencies_t) :
  _tf self = Returned tfs -> Dict.keys tfs = Dict.keys (_dataset self).
Proof. apply DictFacts.keys_traverse. Qed.

(** *** Inverse document frequency *)

Lemma keys_fromkeys (ks : list string) (v : Z) :
  Dict.keys (Dict.fromkeys ks v) = ks.
Proof. apply DictFacts.keys_comp. Qed.

Lemma mem_fromkeys (tc : list (string * Z)) (t : string) :
  Dict.mem t (Dict.fromkeys (Dict.keys tc) 1) = Dict.mem t tc.
Proof.
  destruct (Dict.mem t tc) eqn:E.
  - apply DictFacts.mem_true_iff. rewrite keys_fromkeys.
    now apply DictFacts.mem_true_iff.
  - apply DictFacts.mem_false_iff. rewrite keys_fromkeys.
    now apply DictFacts.mem_false_iff.
Qed.

Lemma get_or_fromkeys (tc : list (string * Z)) (t : string) :
  Dict.get_or 0 t (Dict.fromkeys (Dict.keys tc) 1)
  = if Dict.mem t tc then 1 else 0.
Proof.
  rewrite <- mem_fromkeys. unfold Dict.get_or, Dict.mem, Dict.fromkeys.
  rewrite DictFacts.get_comp. now destruct (in_dec _ _ _).
Qed.

Lemma fromkeys_positive (ks : list string) :
  Forall (fun v => 0 < v) (Dict.values (Dict.fromkeys ks 1)).
Proof.
  unfold Dict.values, Dict.fromkeys, Dict.comp. rewrite map_map. simpl.
  rewrite Forall_map. apply Forall_forall. intros; lia.
Qed.

Lemma doc_freq_cons (e : string * document) (ds : dataset_t) (t : string) :
  doc_freq (e :: ds) t
  = (if Dict.mem t (term_count (snd e)) then 1 else 0) + doc_freq ds t.
Proof.
  unfold doc_freq. simpl.
  destruct (Dict.mem t (term_count (snd e))); simpl List.length; lia.
Qed.

Lemma doc_freq_nonneg (ds : dataset_t) (t : string) : 0 <= doc_freq ds t.
Proof. unfold doc_freq. lia. Qed.

Lemma document_counts_acc (ds : dataset_t) (acc : list (string * Z)) :
  Forall (fun v => 0 < v) (Dict.values acc) ->
  NoDup (Dict.keys acc) ->
  let r := fold_left count_step ds acc in
  Forall (fun v => 0 < v) (Dict.values r)
  /\ NoDup (Dict.keys r)
  /\ forall t, Dict.get_or 0 t r = Dict.get_or 0 t acc + doc_freq ds t.
Proof.
  revert acc. induction ds as [|e ds IH]; intros acc Hpos Hnd; simpl.
  - repeat split; auto. intros t. unfold doc_freq. simpl. lia.
  - destruct (IH (count_step acc e)) as (H1 & H2 & H3).
    + apply merge_counts_positive; auto using fromkeys_positive.
    + unfold count_step. rewrite keys_merge_counts.
      apply NoDup_set_union.
    + repeat split; auto. intros t. rewrite H3, doc_freq_cons.
      unfold count_step. rewrite get_or_merge_counts, get_or_fromkeys.
      lia.
Qed.

Lemma document_counts_spec (ds : dataset_t) :
  Forall (fun v => 0 < v) (Dict.values (document_counts ds))
  /\ NoDup (Dict.keys (document_counts ds))
  /\ forall t, Dict.get_or 0 t (document_counts ds) = doc_freq ds t.
Proof.
  destruct (document_counts_acc ds [] (Forall_nil _) (NoDup_nil _))
    as (H1 & H2 & H3).
  repeat split; auto.
Qed.

Lemma get_document_counts (ds : dataset_t) (t : string) :
  Dict.get t (document_counts ds)
  = if doc_freq ds t =? 0 then None else Some (doc_freq ds t).
Proof.
  destruct (document_counts_spec ds) as (Hpos & _ & Hget).
  specialize (Hget t). unfold Dict.get_or in Hget.
  destruct (Dict.get t (document_counts ds)) as [v|] eqn:E.
  - pose proof (get_positive _ _ _ Hpos E). rewrite <- Hget.
    destruct (Z.eqb_spec v 0); [lia | reflexivity].
  - now rewrite <- Hget.
Qed.

Lemma document_counts_nil : document_counts [] = [].
Proof. reflexivity. Qed.

Lemma doc_freq_le_length (ds : dataset_t) (t : string) :
  doc_freq ds t <= Z.of_nat (List.length ds).
Proof.
  unfold doc_freq. apply Nat2Z.inj_le, filter_length_le.
Qed.

(** The quotient handed to [math.log] has [1 <= docFreq <= N]: the
    logarithm is always taken of a number in (0, 1]. *)
Lemma log_argument_in_range (ds : dataset_t) (t : string) (n : Z) :
  In (t, n) (document_counts ds) -> 1 <= n <= Z.of_nat (List.length ds).
Proof.
  intros Hin. destruct (document_counts_spec ds) as (Hpos & Hnd & Hget).
  apply (DictFacts.In_get_NoDup _ _ _ Hnd) in Hin.
  pose proof (get_positive _ _ _ Hpos Hin).
  specialize (Hget t). unfold Dict.get_or in Hget. rewrite Hin in Hget.
  pose proof (doc_freq_le_length ds t). lia.
Qed.

(** [_idf] never divides by zero: a term only gets counted when there is
    a document. *)
Lemma idf_returns (self : engine) : exists idfs, _idf self = Returned idfs.
Proof.
  unfold _idf. apply DictFacts.traverse_returns. intros t n Hin.
  unfold true_div.
  destruct (Z.eqb_spec (Z.of_nat (List.length (_dataset self))) 0) as [Hz|];
    eauto.
  destruct (_dataset self); [destruct Hin | simpl in Hz; lia].
Qed.

Lemma idf_get (self : engine) (idfs : list (string * float)) (t : string) :
  _idf self = Returned idfs ->
  Dict.get t idfs
  = if doc_freq (_dataset self) t =? 0 then None
    else Some (IDF (_dataset self) t).
Proof.
  unfold _idf. intros H.
  apply (DictFacts.get_traverse _ _ _ t) in H.
  rewrite get_document_counts in H.
  destruct (doc_freq (_dataset self) t =? 0); auto.
  destruct H as (b & Hb & ->). unfold true_div in Hb.
  destruct (_ =? 0); [discriminate|]. now inversion Hb.
Qed.

Lemma idf_keys_NoDup (self : engine) (idfs : list (string * float)) :
  _idf self = Returned idfs -> NoDup (Dict.keys idfs).
Proof.
  unfold _idf. intros H. apply DictFacts.keys_traverse in H.
  rewrite H. apply document_counts_spec.
Qed.

Lemma doc_freq_positive (ds : dataset_t) (name t : string) (doc : document) :
  Dict.get name ds = Some doc -> Dict.mem t (term_count doc) = true ->
  0 < doc_freq ds t.
Proof.
  intros Hget Hmem. apply DictFacts.get_Some_In in Hget.
  induction ds as [|e r IH]; [destruct Hget|].
  rewrite doc_freq_cons. pose proof (doc_freq_nonneg r t).
  destruct Hget as [->|Hin].
  - simpl snd. rewrite Hmem. lia.
  - specialize (IH Hin). destruct (Dict.mem t (term_count (snd e))); lia.
Qed.
End Frequencies.

(** ** The combined weights: what [_compute_results] writes *)

Section Weights.
Context {PF : PyFloat} {PS : PySet}.
Implicit Types (r : results_t) (t d : string) (w : float).

(** *** One assignment *)

Lemma weight_at_store_same t d w r : weight_at (store t d w r) t d = Some w.
Proof.
  unfold weight_at, store.
  rewrite DictFacts.get_set_same. apply DictFacts.get_set_same.
Qed.

Lemma weight_at_store_other t d w r t' d' :
  (t, d) <> (t', d') ->
  weight_at (store t d w r) t' d' = weight_at r t' d'.
Proof.
  intros Hne. unfold weight_at, store, results_t, weights_t in *.
  destruct (String.eqb_spec t t') as [<-|Ht].
  - rewrite DictFacts.get_set_same.
    assert (Hd : d <> d') by congruence.
    rewrite DictFacts.get_set_other by assumption.
    unfold Dict.mem, Dict.get_or.
    destruct (Dict.get t r) as [ws|] eqn:E.
    + now rewrite E.
    + now rewrite DictFacts.get_set_same.
  - rewrite DictFacts.get_set_other by assumption.
    destruct (Dict.mem t r); auto.
    now rewrite DictFacts.get_set_other.
Qed.

Lemma store_same_value t d w r : weight_at r t d = Some w -> store t d w r = r.
Proof.
  unfold weight_at, store, Dict.mem, Dict.get_or, results_t, weights_t in *.
  destruct (Dict.get t r) as [ws|] eqn:E; [|discriminate].
  intros Hw. rewrite E, (DictFacts.set_same_value _ _ _ Hw).
  now apply DictFacts.set_same_value.
Qed.

(** *** A run of assignments *)

Lemma weight_at_apply_writes_other ws r t d :
  ~ In (t, d) (map fst ws) ->
  weight_at (apply_writes ws r) t d = weight_at r t d.
Proof.
  revert r. induction ws as [|[[t0 d0] w0] ws IH]; intros r Hnot; auto.
  simpl in *. unfold apply_writes in *. simpl.
  rewrite IH by tauto. apply weight_at_store_other. tauto.
Qed.

Lemma weight_at_apply_writes_in ws r t d w :
  NoDup (map fst ws) -> In (t, d, w) ws ->
  weight_at (apply_writes ws r) t d = Some w.
Proof.
  revert r. induction ws as [|[[t0 d0] w0] ws IH]; intros r Hnd Hin.
  - destruct Hin.
  - simpl in Hnd. inversion Hnd as [|? ? Hnot Hnd']; subst.
    destruct Hin as [E|Hin].
    + inversion E; subst.
      change (apply_writes ((t, d, w) :: ws) r)
        with (apply_writes ws (store t d w r)).
      rewrite weight_at_apply_writes_other by assumption.
      apply weight_at_store_same.
    + change (apply_writes ((t0, d0, w0) :: ws) r)
        with (apply_writes ws (store t0 d0 w0 r)).
      now apply IH.
Qed.

Lemma apply_writes_same_values ws r :
  (forall t d w, In (t, d, w) ws -> weight_at r t d = Some w) ->
  apply_writes ws r = r.
Proof.
  induction ws as [|[[t0 d0] w0] ws IH]; intros H; auto.
  change (apply_writes ((t0, d0, w0) :: ws) r)
    with (apply_writes ws (store t0 d0 w0 r)).
  rewrite store_same_value by (apply H; now left).
  apply IH. intros; apply H; now right.
Qed.

(** Running the same assignments a second time changes nothing. *)
Lemma apply_writes_idempotent ws r :
  NoDup (map fst ws) ->
  apply_writes ws (apply_writes ws r) = apply_writes ws r.
Proof.
  intros Hnd. apply apply_writes_same_values.
  intros t d w Hin. now apply weight_at_apply_writes_in.
Qed.

(** *** The assignments of [_compute_results] *)

Lemma store_term_writes (tfs : frequencies_t) r (entry : string * float) :
  store_term tfs r entry = apply_writes (writes_of_term tfs entry) r.
Proof.
  unfold store_term, writes_of_term, apply_writes.
  revert r. induction tfs as [|de tfs IH]; intros r; auto.
  simpl. rewrite fold_left_app, <- IH.
  now destruct (Dict.get (fst entry) (snd de)).
Qed.

Lemma compute_loop_writes (tfs : frequencies_t)
  (idfs : list (string * float)) r :
  fold_left (store_term tfs) idfs r = apply_writes (writes tfs idfs) r.
Proof.
  unfold writes. revert r. induction idfs as [|e idfs IH]; intros r; auto.
  simpl. rewrite IH, store_term_writes.
  unfold apply_writes. now rewrite fold_left_app.
Qed.

Lemma in_writes_of_term (tfs : frequencies_t) (entry : string * float)
  t d w :
  In (t, d, w) (writes_of_term tfs entry)
  <-> t = fst entry
      /\ exists fs f, In (d, fs) tfs /\ Dict.get t fs = Some f
                      /\ w = fmul f (snd entry).
Proof.
  unfold writes_of_term. rewrite in_flat_map. split.
  - intros ([d0 fs] & Hin & H). simpl in H.
    destruct (Dict.get (fst entry) fs) as [f|] eqn:E; [|destruct H].
    destruct H as [H|[]]. inversion H; subst. split; eauto.
  - intros (-> & fs & f & Hin & Hget & ->).
    exists (d, fs). split; auto. simpl. rewrite Hget. now left.
Qed.

Lemma in_writes (tfs : frequencies_t) (idfs : list (string * float))
  t d w :
  In (t, d, w) (writes tfs idfs)
  <-> exists i fs f, In (t, i) idfs /\ In (d, fs) tfs
                     /\ Dict.get t fs = Some f /\ w = fmul f i.
Proof.
  unfold writes. rewrite in_flat_map. split.
  - intros ([t0 i] & Hin & H). apply in_writes_of_term in H.
    simpl in H. destruct H as (-> & fs & f & H1 & H2 & H3). eauto 8.
  - intros (i & fs & f & H1 & H2 & H3 & H4).
    exists (t, i). split; auto. apply in_writes_of_term. simpl. eauto 8.
Qed.

Lemma NoDup_writes_of_term (tfs : frequencies_t) (entry : string * float) :
  NoDup (Dict.keys tfs) -> NoDup (map fst (writes_of_term tfs entry)).
Proof.
  unfold writes_of_term.
  induction tfs as [|[d0 fs0] tfs IH]; intros Hnd; simpl; [constructor|].
  inversion Hnd as [|? ? Hnot Hnd']; subst.
  rewrite map_app. simpl.
  destruct (Dict.get (fst entry) fs0) as [f0|]; simpl; auto.
  constructor; auto.
  intros Hin. apply in_map_iff in Hin.
  destruct Hin as ([[t1 d1] w1] & E & Hin). simpl in E.
  apply (in_writes_of_term tfs entry) in Hin.
  destruct Hin as (_ & fs & f & Hin & _).
  inversion E; subst. apply Hnot.
  unfold Dict.keys. change d0 with (fst (d0, fs)). now apply in_map.
Qed.

Lemma NoDup_writes (tfs : frequencies_t) (idfs : list (string * float)) :
  NoDup (Dict.keys tfs) -> NoDup (Dict.keys idfs) ->
  NoDup (map fst (writes tfs idfs)).
Proof.
  intros Htfs. unfold writes.
  induction idfs as [|[t0 i0] idfs IH]; intros Hnd; simpl; [constructor|].
  inversion Hnd as [|? ? Hnot Hnd']; subst.
  rewrite map_app. apply NoDup_app; auto using NoDup_writes_of_term.
  intros [t d] H1 H2.
  apply in_map_iff in H1. destruct H1 as ([[t1 d1] w1] & E1 & H1).
  apply in_map_iff in H2. destruct H2 as ([[t2 d2] w2] & E2 & H2).
  simpl in E1, E2. inversion E1; inversion E2; subst.
  apply in_writes_of_term in H1. destruct H1 as [Ht _]. simpl in Ht.
  apply (in_writes tfs idfs) in H2.
  destruct H2 as (i & _ & _ & Hin & _). subst.
  apply Hnot. unfold Dict.keys. change t0 with (fst (t0, i)).
  now apply in_map.
Qed.

(** *** What a recomputation leaves in [_tf_idf_results] *)

Lemma compute_results_unfold (self : engine) tfs idfs :
  _results_up_to_date self = true ->
  _tf self = Returned tfs -> _idf self = Returned idfs ->
  _compute_results self
  = (Returned tt,
     {| _dataset := _dataset self;
        _tf_idf_results := apply_writes (writes tfs idfs)
                                        (_tf_idf_results self);
        _results_up_to_date := true;
        _compute_on_add := _compute_on_add self |}).
Proof.
  intros Hflag Htf Hidf. unfold _compute_results.
  rewrite Hflag, Htf, Hidf. simpl. now rewrite compute_loop_writes.
Qed.

Lemma tf_idf_table_contains (ds : dataset_t) t d :
  tf_idf_table ds t d = None <-> contains ds t d = false.
Proof.
  unfold tf_idf_table, contains.
  destruct (Dict.get d ds) as [doc|]; [|tauto].
  destruct (Dict.mem t (term_count doc)); split; congruence.
Qed.

Lemma written_weights (self : engine) tfs idfs t d :
  NoDup (Dict.keys (_dataset self)) ->
  _tf self = Returned tfs -> _idf self = Returned idfs ->
  match tf_idf_table (_dataset self) t d with
  | Some w => In (t, d, w) (writes tfs idfs)
  | None => ~ In (t, d) (map fst (writes tfs idfs))
  end.
Proof.
  intros Hnd Htf Hidf.
  pose proof (tf_get self tfs d Htf) as Hd.
  pose proof (idf_get self idfs t Hidf) as Ht.
  unfold tf_idf_table.
  destruct (Dict.get d (_dataset self)) as [doc|] eqn:Eget.
  - destruct Hd as (fs & Hfs & Hterm). specialize (Hterm t).
    destruct (Dict.mem t (term_count doc)) eqn:Emem.
    + apply in_writes.
      pose proof (doc_freq_positive _ _ _ _ Eget Emem) as Hpos.
      destruct (Z.eqb_spec (doc_freq (_dataset self) t) 0); [lia|].
      exists (IDF (_dataset self) t), fs, (TF doc t).
      repeat split; auto using DictFacts.get_Some_In.
    + intros Hin. apply in_map_iff in Hin.
      destruct Hin as ([[t1 d1] w1] & E & Hin). simpl in E.
      inversion E; subst. apply in_writes in Hin.
      destruct Hin as (i & fs' & f & _ & Hin & Hget & _).
      apply DictFacts.In_get_NoDup in Hin;
        [|rewrite (tf_keys _ _ Htf); assumption].
      congruence.
  - intros Hin. apply in_map_iff in Hin.
    destruct Hin as ([[t1 d1] w1] & E & Hin). simpl in E.
    inversion E; subst. apply in_writes in Hin.
    destruct Hin as (i & fs' & f & _ & Hin & _).
    apply DictFacts.get_None_iff in Hd. apply Hd.
    unfold Dict.keys. change d with (fst (d, fs')). now apply in_map.
Qed.

(** After a recomputation every (term, document) pair of the dataset
    carries [TF * IDF]; every other entry is what it was before. *)
Lemma compute_results_weights (self : engine) t d :
  NoDup (Dict.keys (_dataset self)) ->
  _results_up_to_date self = true ->
  fst (_compute_results self) = Returned tt ->
  weight_at (_tf_idf_results (snd (_compute_results self))) t d
  = match tf_idf_table (_dataset self) t d with
    | Some w => Some w
    | None => weight_at (_tf_idf_results self) t d
    end.
Proof.
  intros Hnd Hflag Hret.
  destruct (_tf self) as [tfs|e] eqn:Htf;
    [|unfold _compute_results in Hret; rewrite Hflag, Htf in Hret;
      discriminate].
  destruct (idf_returns self) as [idfs Hidf].
  rewrite (compute_results_unfold self tfs idfs) by assumption. simpl.
  pose proof (written_weights self tfs idfs t d Hnd Htf Hidf) as Hw.
  destruct (tf_idf_table (_dataset self) t d) as [w|].
  - apply weight_at_apply_writes_in; auto.
    apply NoDup_writes; [rewrite (tf_keys _ _ Htf)|]; eauto using idf_keys_NoDup.
  - now apply weight_at_apply_writes_other.
Qed.

Lemma tf_dataset (self self' : engine) :
  _dataset self' = _dataset self -> _tf self' = _tf self.
Proof. unfold _tf. now intros ->. Qed.

Lemma idf_dataset (self self' : engine) :
  _dataset self' = _dataset self -> _idf self' = _idf self.
Proof. unfold _idf. now intros ->. Qed.

(** A second recomputation right after a first one rewrites the same
    weights and leaves the whole engine as it was. *)
Lemma compute_results_idempotent (self : engine) :
  NoDup (Dict.keys (_dataset self)) ->
  _compute_results (snd (_compute_results self))
  = (fst (_compute_results self), snd (_compute_results self)).
Proof.
  intros Hnd.
  destruct (_results_up_to_date self) eqn:Hflag.
  2:{ unfold _compute_results. rewrite Hflag. simpl. now rewrite Hflag. }
  destruct (_tf self) as [tfs|e] eqn:Htf.
  2:{ unfold _compute_results. rewrite Hflag, Htf. simpl.
      now rewrite Hflag, Htf. }
  destruct (idf_returns self) as [idfs Hidf].
  rewrite (compute_results_unfold self tfs idfs) by assumption. simpl.
  rewrite (compute_results_unfold _ tfs idfs); auto. simpl.
  rewrite apply_writes_idempotent; auto.
  apply NoDup_writes; [rewrite (tf_keys _ _ Htf)|]; eauto using idf_keys_NoDup.
Qed.
End Weights.

(** ** Engines built by calls: invariants of [run] *)

Section Invariants.
Context {PF : PyFloat} {PS : PySet}.

Lemma compute_results_returns (self : engine) :
  wf_dataset (_dataset self) -> fst (_compute_results self) = Returned tt.
Proof.
  intros Hwf. unfold _compute_results.
  destruct (_results_up_to_date self); auto.
  destruct (tf_returns_wf self Hwf) as [tfs ->].
  destruct (idf_returns self) as [idfs ->]. reflexivity.
Qed.

Lemma compute_unless_on_add_returns (self : engine) :
  wf_dataset (_dataset self) ->
  fst (compute_unless_on_add self) = Returned tt.
Proof.
  intros Hwf. unfold compute_unless_on_add.
  destruct (_compute_on_add self); simpl; auto using compute_results_returns.
Qed.

Lemma compute_results_flag (self : engine) :
  _results_up_to_date (snd (_compute_results self))
  = _results_up_to_date self.
Proof.
  unfold _compute_results.
  destruct (_results_up_to_date self) eqn:E; simpl; auto.
  destruct (_tf self); simpl; auto.
  destruct (_idf self); simpl; auto.
Qed.

Lemma compute_results_within (self : engine) :
  wf_dataset (_dataset self) -> results_within self ->
  results_within (snd (_compute_results self)).
Proof.
  intros Hwf Hin. destruct (_results_up_to_date self) eqn:Hflag.
  - intros t d. rewrite compute_results_dataset.
    rewrite compute_results_weights;
      auto using compute_results_returns; [|apply Hwf].
    destruct (tf_idf_table (_dataset self) t d) eqn:E; [|apply Hin].
    intros _. destruct (contains (_dataset self) t d) eqn:C; auto.
    apply tf_idf_table_contains in C. congruence.
  - unfold _compute_results. now rewrite Hflag.
Qed.

Lemma compute_unless_on_add_within (self : engine) :
  wf_dataset (_dataset self) -> results_within self ->
  results_within (snd (compute_unless_on_add self)).
Proof.
  intros Hwf Hin. unfold compute_unless_on_add.
  destruct (_compute_on_add self); simpl; auto using compute_results_within.
Qed.

Lemma contains_set (ds : dataset_t) (n : string) (doc' : document)
  (t d : string) :
  (forall doc, Dict.get n ds = Some doc ->
               Dict.mem t (term_count doc) = true ->
               Dict.mem t (term_count doc') = true) ->
  contains ds t d = true -> contains (Dict.set n doc' ds) t d = true.
Proof.
  intros H. unfold contains.
  destruct (String.eqb_spec n d) as [->|Hne].
  - rewrite DictFacts.get_set_same.
    destruct (Dict.get d ds); [eauto | discriminate].
  - now rewrite DictFacts.get_set_other.
Qed.

Lemma add_document_within (self : engine) (n : string) (ts : list string) :
  wf_dataset (_dataset self) -> results_within self ->
  results_within (snd (add_document self n ts)).
Proof.
  intros Hwf Hin.
  pose proof (wf_dataset_add_document self n ts Hwf) as Hwf'.
  rewrite add_document_dataset in Hwf'.
  unfold add_document.
  match goal with
  | |- context [if _compute_on_add ?s then _ else _] => set (self1 := s)
  end.
  assert (H1 : results_within self1).
  { intros t d Hw. simpl in *. apply contains_set; auto.
    intros doc ->. simpl. rewrite mem_merge_counts. now intros ->. }
  destruct (_compute_on_add self1); auto.
  apply compute_results_within; auto.
Qed.

Lemma export_engine (self : engine) (w : world) (p : string) (inc : bool) :
  fst (snd (export self w p inc)) = self
  \/ fst (snd (export self w p inc)) = snd (compute_unless_on_add self).
Proof.
  unfold export. destruct p as [|c p']; auto.
  destruct (ensure_dir w (String c p')); auto.
  destruct (compute_unless_on_add self) as [o s]. right.
  destruct o; auto. unfold export_try.
  destruct (open_wb a (String c p')); auto.
  destruct (pickle_dump a1 (String c p') _); auto.
Qed.

Lemma step_within (st : engine * world) (c : call) :
  wf_dataset (_dataset (fst st)) -> results_within (fst st) ->
  results_within (fst (step st c)).
Proof.
  intros Hwf Hin. destruct c; simpl.
  - now apply add_document_within.
  - destruct state; auto.
  - rewrite score_document_state. now apply compute_unless_on_add_within.
  - destruct (export_engine (fst st) (snd st) file_path include_dataset)
      as [-> | ->]; auto using compute_unless_on_add_within.
Qed.

Lemma run_invariants (cs : list call) (st : engine * world) :
  wf_dataset (_dataset (fst st)) -> results_within (fst st) ->
  wf_dataset (_dataset (fst (run cs st)))
  /\ results_within (fst (run cs st)).
Proof.
  revert st. induction cs as [|c r IH]; intros st Hwf Hin; auto.
  apply IH; auto using wf_dataset_step, step_within.
Qed.

Lemma fresh_engine_within (b : bool) : results_within (TfIdf b).
Proof. intros t d H. now elim H. Qed.

Lemma built_engine_invariants (b : bool) (w : world) (cs : list call) :
  wf_dataset (_dataset (fst (run cs (TfIdf b, w))))
  /\ results_within (fst (run cs (TfIdf b, w))).
Proof.
  apply run_invariants; simpl.
  - apply wf_dataset_empty.
  - apply fresh_engine_within.
Qed.

(** For an engine built by calls a recomputation yields exactly the
    table of the specification. *)
Lemma built_engine_recomputes_table (b : bool) (w : world)
  (cs : list call) (t d : string) :
  let self := fst (run cs (TfIdf b, w)) in
  _results_up_to_date self = true ->
  fst (_compute_results self) = Returned tt
  /\ weight_at (_tf_idf_results (snd (_compute_results self))) t d
     = tf_idf_table (_dataset self) t d.
Proof.
  intros self Hflag.
  destruct (built_engine_invariants b w cs) as [Hwf Hin].
  fold self in Hwf, Hin. split; [now apply compute_results_returns|].
  rewrite compute_results_weights;
    auto using compute_results_returns; [|apply Hwf].
  destruct (tf_idf_table (_dataset self) t d) eqn:E; auto.
  destruct (weight_at (_tf_idf_results self) t d) eqn:Ew; auto.
  apply tf_idf_table_contains in E.
  rewrite Hin in E; [discriminate | congruence].
Qed.
End Invariants.

(** ** When scoring reads current results *)

Section CurrentResults.
Context {PF : PyFloat} {PS : PySet}.

(** [_score_term] reads back the weight that the loop of [score_document]
    finds paired with the document it iterates. *)
Lemma score_term_paired (self : engine) (term document : string)
  (ws : weights_t) (w : float) :
  Dict.get term (_tf_idf_results self) = Some ws ->
  NoDup (Dict.keys ws) -> In (document, w) ws ->
  _score_term self term document = Returned w.
Proof.
  intros Hget Hnd Hin. unfold _score_term. rewrite Hget.
  now rewrite (DictFacts.In_get_NoDup _ _ _ Hnd Hin).
Qed.

Lemma compute_results_skipped (self : engine) :
  _results_up_to_date self = false ->
  _compute_results self = (Returned tt, self).
Proof. intros H. unfold _compute_results. now rewrite H. Qed.


End CurrentResults.

(** ** Recomputation and scoring *)

Section Recompute.
Context {PF : PyFloat} {PS : PySet}.
Local Open Scope string_scope.

Lemma compute_unless_on_add_idempotent (self : engine) :
  NoDup (Dict.keys (_dataset self)) ->
  compute_unless_on_add (snd (compute_unless_on_add self))
  = (fst (compute_unless_on_add self), snd (compute_unless_on_add self)).
Proof.
  intros Hnd. unfold compute_unless_on_add.
  destruct (_compute_on_add self) eqn:E; simpl.
  - now rewrite E.
  - rewrite compute_results_compute_on_add, E. simpl.
    now apply compute_results_idempotent.
Qed.

Lemma score_document_returns (self : engine) (doc_terms : list string) :
  fst (compute_unless_on_add self) = Returned tt ->
  score_document self doc_terms
  = (Returned (sorted_reverse
                 (doc_sums_of
                    (_tf_idf_results (snd (compute_unless_on_add self)))
                    doc_terms)),
     snd (compute_unless_on_add self)).
Proof.
  unfold score_document.
  destruct (compute_unless_on_add self) as [o s]. simpl. now intros ->.
Qed.

(** C2 (amended).  When [_compute_results] performs a recomputation on a
    dataset with distinct document names, the resulting
    [_tf_idf_results] maps every (term, document) pair whose document
    currently holds the term to [TF * IDF], and every other entry is
    exactly the entry that was there before (weights are overwritten in
    place, nothing is removed).  Hence, when the earlier entries all
    belong to pairs of the dataset, the result is exactly the sparse
    table of the specification; and they all do in every engine built
    from a fresh one by [add_document], [set_compute_on_add],
    [score_document] and [export] calls. *)
Theorem recompute_overwrites_in_place (self : engine) (t d : string) :
  NoDup (Dict.keys (_dataset self)) ->
  _results_up_to_date self = true ->
  fst (_compute_results self) = Returned tt ->
  weight_at (_tf_idf_results (snd (_compute_results self))) t d
  = match tf_idf_table (_dataset self) t d with
    | Some w => Some w
    | None => weight_at (_tf_idf_results self) t d
    end
  /\ (results_within self ->
      weight_at (_tf_idf_results (snd (_compute_results self))) t d
      = tf_idf_table (_dataset self) t d)
  /\ (forall (b : bool) (w : world) (calls : list call),
        self = fst (run calls (TfIdf b, w)) -> results_within self).
Proof.
  intros Hnd Hflag Hret.
  pose proof (compute_results_weights self t d Hnd Hflag Hret) as Hw.
  split; auto. split.
  - intros Hin. rewrite Hw.
    destruct (tf_idf_table (_dataset self) t d) eqn:E; auto.
    destruct (weight_at (_tf_idf_results self) t d) eqn:Ew; auto.
    apply tf_idf_table_contains in E.
    rewrite Hin in E; [discriminate | congruence].
  - intros b w calls ->. apply built_engine_invariants.
Qed.

(** C7 (the code at the failing input).  After [add_document] on a fresh
    engine the flag [_results_up_to_date] is set, and the recomputation
    that follows leaves it set (line 128 assigns [True] again), so the
    guard of [_compute_results] never skips a later recomputation. *)
Theorem recompute_leaves_flag_set (compute_on_add : bool)
  (doc_name : string) (doc_terms : list string) :
  let self := snd (add_document (TfIdf compute_on_add) doc_name doc_terms) in
  _results_up_to_date self = true
  /\ _results_up_to_date (snd (_compute_results self)) = true.
Proof.
  intros self.
  assert (H : _results_up_to_date self = true).
  { unfold self, add_document. simpl.
    destruct compute_on_add; simpl; auto.
    now rewrite compute_results_flag. }
  split; auto. now rewrite compute_results_flag.
Qed.

(** C1 (the code at the failing input).  Switch to lazy mode, add two
    documents, switch back to eager mode: [score_document] then reads the
    empty [_tf_idf_results] and returns no score, although a
    recomputation of the current dataset gives document [d] the weight
    [TF * IDF] for term [a]. *)
Theorem stale_results_after_switch_to_eager (w : world) :
  let self :=
    fst (run [SetComputeOnAdd (PyBool false);
              AddDocument "d" ["a"];
              AddDocument "e" ["b"];
              SetComputeOnAdd (PyBool true)] (TfIdf true, w)) in
  score_document self ["a"] = (Returned [], self)
  /\ _tf_idf_results self = []
  /\ tf_idf_table (_dataset self) "a" "d" <> None
  /\ weight_at (_tf_idf_results (snd (_compute_results self))) "a" "d"
     = tf_idf_table (_dataset self) "a" "d".
Proof.
  intros self. repeat split.
  - intros H. apply tf_idf_table_contains in H.
    unfold self, contains in H. simpl in H.
    rewrite mem_merge_counts in H. discriminate.
  - apply (built_engine_recomputes_table true w
             [SetComputeOnAdd (PyBool false);
              AddDocument "d" ["a"];
              AddDocument "e" ["b"];
              SetComputeOnAdd (PyBool true)] "a" "d").
    reflexivity.
Qed.

(** C4.  On a well-formed dataset [score_document] returns the items of
    [doc_sums] rearranged into descending score, items with tied scores
    in the order in which [doc_sums] received them; a second call with
    the same query returns the same list.  ([<] is taken to be a strict
    weak order on the scores of [doc_sums], as it is when none is NaN.) *)
Theorem score_document_ranking (self : engine) (doc_terms : list string) :
  wf_dataset (_dataset self) ->
  let self1 := snd (score_document self doc_terms) in
  let doc_sums := doc_sums_of (_tf_idf_results self1) doc_terms in
  strict_weak_order_on doc_sums ->
  exists ranked,
    fst (score_document self doc_terms) = Returned ranked
    /\ Permutation doc_sums ranked
    /\ descending ranked
    /\ (forall x, In x doc_sums ->
                  filter (tied (snd x)) ranked = filter (tied (snd x)) doc_sums)
    /\ fst (score_document self1 doc_terms) = Returned ranked.
Proof.
  intros Hwf. simpl.
  pose proof (compute_unless_on_add_returns self Hwf) as Hret.
  rewrite (score_document_returns self doc_terms Hret). simpl.
  intros Hswo.
  eexists. split; [reflexivity|].
  split; [apply sorted_reverse_perm|].
  split; [now apply sorted_reverse_descending|].
  split.
  - intros x Hx. apply sorted_reverse_stable.
    apply (strict_weak_order_on_incl _ _ Hswo).
    intros z [<-|Hz]; auto.
  - assert (Hnd : NoDup (Dict.keys (_dataset self))) by apply Hwf.
    pose proof (compute_unless_on_add_idempotent self Hnd) as Hid.
    rewrite score_document_returns; rewrite Hid; auto.
Qed.
End Recompute.

(** ** Documents without terms *)

Section EmptyDocuments.
Context {PF : PyFloat} {PS : PySet}.

Lemma add_document_returns (self : engine) (n : string) (ts : list string) :
  wf_dataset (_dataset self) -> fst (add_document self n ts) = Returned tt.
Proof.
  intros Hwf.
  pose proof (wf_dataset_add_document self n ts Hwf) as Hwf'.
  rewrite add_document_dataset in Hwf'.
  unfold add_document. simpl.
  destruct (_compute_on_add self); auto.
  now apply compute_results_returns.
Qed.

Lemma merge_counts_nil : merge_counts [] (Counter []) = [].
Proof.
  unfold merge_counts, set_union. simpl.
  now rewrite (Permutation_nil (set_iter_perm [])).
Qed.

Lemma all_absent_nil {V : Type} (d : list (string * V)) :
  (forall k, Dict.get k d = None) -> d = [].
Proof.
  destruct d as [|[k v] r]; auto. intros H. specialize (H k).
  simpl in H. rewrite String.eqb_refl in H. discriminate.
Qed.

(** C6 (amended).  On an engine built by calls, [add_document] with an
    empty list of terms raises nothing, and for a new name it stores a
    document with [nr_terms == 0] and an empty [term_count].  [_tf] over
    the resulting dataset does not fail: it divides once per term a
    document holds, so such a document gets an empty table of
    frequencies.  [_tf] raises (a division by zero) exactly when some
    document has [nr_terms == 0] and a non-empty [term_count]; in
    particular it returns whenever every document has [nr_terms > 0]. *)
Theorem empty_document_divides_nothing (compute_on_add : bool) (w : world)
  (calls : list call) (doc_name : string) (other : engine) :
  let self := fst (run calls (TfIdf compute_on_add, w)) in
  let self1 := snd (add_document self doc_name []) in
  fst (add_document self doc_name []) = Returned tt
  /\ (batches doc_name calls = [] ->
      Dict.get doc_name (_dataset self1)
      = Some {| nr_terms := 0; term_count := [] |})
  /\ (exists tfs,
        _tf self1 = Returned tfs
        /\ (batches doc_name calls = [] -> Dict.get doc_name tfs = Some []))
  /\ ((exists e, _tf other = Raised e)
      <-> exists name doc, In (name, doc) (_dataset other)
                           /\ nr_terms doc = 0 /\ term_count doc <> [])
  /\ ((forall name doc, In (name, doc) (_dataset other) -> 0 < nr_terms doc)
      -> exists tfs, _tf other = Returned tfs).
Proof.
  intros self self1.
  destruct (built_engine_invariants compute_on_add w calls) as [Hwf _].
  fold self in Hwf.
  pose proof (wf_dataset_add_document self doc_name [] Hwf) as Hwf1.
  fold self1 in Hwf1.
  assert (Hnew : batches doc_name calls = [] ->
                 Dict.get doc_name (_dataset self1)
                 = Some {| nr_terms := 0; term_count := [] |}).
  { intros Hb. unfold self1. rewrite add_document_dataset.
    rewrite DictFacts.get_set_same.
    pose proof (aggregate_run compute_on_add w calls doc_name) as Hagg.
    fold self in Hagg.
    destruct (Dict.get doc_name (_dataset self)) as [doc|] eqn:E.
    - destruct Hagg as [Hne _]. contradiction.
    - simpl. now rewrite merge_counts_nil. }
  split; [now apply add_document_returns|].
  split; [exact Hnew|].
  split.
  - destruct (tf_returns_wf self1 Hwf1) as [tfs Htfs]. exists tfs.
    split; auto. intros Hb.
    pose proof (tf_get self1 tfs doc_name Htfs) as Hget.
    rewrite (Hnew Hb) in Hget. destruct Hget as (fs & -> & Hfs).
    f_equal. now apply all_absent_nil.
  - split; [apply tf_raises_iff|].
    intros Hpos. apply tf_returns. intros name doc Hin.
    left. specialize (Hpos _ _ Hin). lia.
Qed.
End EmptyDocuments.

(** ** State transfer: [export] and [load] *)

Section StateTransfer.
Context {PF : PyFloat} {PS : PySet}.

Lemma in_list_app (p : string) (l l' : list string) :
  in_list p (l ++ l') = in_list p l || in_list p l'.
Proof. unfold in_list. apply existsb_app. Qed.

Lemma ensure_dir_keeps (w w1 : world) (p : string) :
  ensure_dir w p = Returned w1 ->
  files w1 = files w /\ denied w1 = denied w /\ disk_full w1 = disk_full w
  /\ forall x, in_list x (dirs w) = true -> in_list x (dirs w1) = true.
Proof.
  unfold ensure_dir, makedirs.
  destruct (negb (path_exists w (dirname p))).
  - destruct (dirname p); [discriminate|].
    destruct (_ || _); [discriminate|].
    intros H; inversion H; subst; simpl. repeat split; auto.
    intros x Hx. rewrite in_list_app, Hx. apply orb_true_r.
  - intros H; inversion H; subst. repeat split; auto.
Qed.

Lemma load_try_raised (self : engine) (w : world) (p : string) (e : exn) :
  fst (load_try self w p) = Raised e -> snd (load_try self w p) = self.
Proof.
  unfold load_try. destruct (open_rb w p) as [f|]; auto.
  destruct (pickle_load f) as [[pl|]|]; auto. discriminate.
Qed.

Lemma load_returns (self : engine) (w : world) (p : string) :
  exists b, fst (load self w p) = Returned b
            /\ (b = false -> snd (load self w p) = self).
Proof.
  unfold load. destruct p as [|c p']; [now exists false|].
  pose proof (load_try_raised self w (String c p')) as Hr.
  unfold load_try in *.
  destruct (open_rb w (String c p')) as [f|]; [|now exists false].
  destruct (pickle_load f) as [[pl|]|]; simpl;
    [exists true | exists false | exists false]; split; auto.
  discriminate.
Qed.

Lemma load_fails_false (self : engine) (w : world) (p : string) :
  load_fails w p -> load self w p = (Returned false, self).
Proof.
  unfold load_fails, load. destruct p as [|c p']; auto.
  unfold load_try, open_rb.
  intros [H|[H|[H|[H|H]]]]; [discriminate|rewrite H; reflexivity|..];
    destruct (in_list _ (denied w)); auto; now rewrite H.
Qed.

Lemma export_unfold (self : engine) (w : world) (p : string) (inc : bool) :
  p <> EmptyString ->
  export self w p inc
  = match ensure_dir w p with
    | Raised _ => (Returned false, (self, w))
    | Returned w1 =>
        match fst (compute_unless_on_add self) with
        | Raised e => (Raised e, (snd (compute_unless_on_add self), w1))
        | Returned _ =>
            except_return_false
              (export_try (snd (compute_unless_on_add self)) w1 p
                 (payload_of (snd (compute_unless_on_add self)) inc))
        end
    end.
Proof.
  intros Hp. unfold export. destruct p; [congruence|].
  destruct (ensure_dir w _); auto.
  now destruct (compute_unless_on_add self) as [[u|e] s].
Qed.

Lemma export_try_result (self : engine) (w : world) (p : string)
  (obj : payload) :
  match except_return_false (export_try self w p obj) with
  | (Returned true, (self', w')) =>
      self' = self
      /\ in_list p (denied w) = false /\ disk_full w = false
      /\ in_list p (dirs w) = false
      /\ Dict.get p (files w') = Some (Pickle (PyDict obj))
      /\ denied w' = denied w
  | (Returned false, (self', _)) =>
      self' = self /\ (in_list p (denied w) = true
                       \/ in_list p (dirs w) = true
                       \/ in_list (dirname p) (dirs w) = false
                       \/ disk_full w = true)
  | (Raised _, _) => False
  end.
Proof.
  unfold export_try, open_wb, pickle_dump.
  destruct (in_list p (denied w)) eqn:E1; simpl; auto.
  destruct (in_list p (dirs w)) eqn:E2; simpl; auto.
  destruct (in_list (dirname p) (dirs w)) eqn:E3; simpl; auto.
  destruct (disk_full w) eqn:E4; simpl; [auto 6|].
  repeat split; auto. apply DictFacts.get_set_same.
Qed.

Lemma export_raises_from_recompute (self : engine) (w : world) (p : string)
  (inc : bool) (e : exn) :
  fst (export self w p inc) = Raised e ->
  fst (compute_unless_on_add self) = Raised e.
Proof.
  destruct p as [|c p']; [discriminate|].
  rewrite export_unfold by discriminate.
  destruct (ensure_dir w (String c p')) as [w1|]; [|discriminate].
  destruct (fst (compute_unless_on_add self)) as [u|e'] eqn:E;
    [|simpl; congruence].
  pose proof (export_try_result (snd (compute_unless_on_add self)) w1
                (String c p')
                (payload_of (snd (compute_unless_on_add self)) inc)) as H.
  destruct (except_return_false _) as [[[|]|] [s' w']]; simpl;
    try discriminate; tauto.
Qed.

Lemma export_storage_fails_false (self : engine) (w : world) (p : string)
  (inc : bool) :
  fst (compute_unless_on_add self) = Returned tt ->
  export_storage_fails w p -> fst (export self w p inc) = Returned false.
Proof.
  intros Hret Hfail. destruct p as [|c p']; [reflexivity|].
  rewrite export_unfold by discriminate. rewrite Hret.
  destruct (ensure_dir w (String c p')) as [w1|] eqn:Ed; [|reflexivity].
  destruct (ensure_dir_keeps _ _ _ Ed) as (_ & Hden & Hfull & Hdirs).
  pose proof (export_try_result (snd (compute_unless_on_add self)) w1
                (String c p')
                (payload_of (snd (compute_unless_on_add self)) inc)) as H.
  destruct (except_return_false _) as [[[|]|] [s' w']]; simpl; auto;
    [|contradiction].
  exfalso. destruct H as (_ & H1 & H2 & H3 & _).
  rewrite Hden in H1. rewrite Hfull in H2.
  destruct Hfail as [Hf|[[Hex [e Hmk]]|[Hf|[Hf|Hf]]]];
    try congruence.
  - unfold ensure_dir in Ed. rewrite Hex in Ed. simpl in Ed. congruence.
  - apply Hdirs in Hf. congruence.
Qed.

Lemma export_true_stores (self : engine) (w : world) (p : string)
  (inc : bool) :
  fst (export self w p inc) = Returned true ->
  let self1 := fst (snd (export self w p inc)) in
  let w1 := snd (snd (export self w p inc)) in
  self1 = snd (compute_unless_on_add self)
  /\ Dict.get p (files w1) = Some (Pickle (PyDict (payload_of self1 inc)))
  /\ in_list p (denied w1) = false.
Proof.
  destruct p as [|c p']; [discriminate|].
  rewrite export_unfold by discriminate.
  destruct (ensure_dir w (String c p')) as [w1|] eqn:Ed; [|discriminate].
  destruct (fst (compute_unless_on_add self)) as [u|e'] eqn:E;
    [|discriminate].
  pose proof (export_try_result (snd (compute_unless_on_add self)) w1
                (String c p')
                (payload_of (snd (compute_unless_on_add self)) inc)) as H.
  destruct (except_return_false _) as [[[|]|] [s' w']]; simpl;
    try discriminate.
  intros _. destruct H as (-> & H1 & _ & _ & H4 & H5).
  repeat split; auto. congruence.
Qed.

Lemma load_pickled (self : engine) (w : world) (p : string) (obj : payload) :
  p <> EmptyString ->
  in_list p (denied w) = false ->
  Dict.get p (files w) = Some (Pickle (PyDict obj)) ->
  load self w p
  = (Returned true,
     {| _dataset := match p_dataset obj with Some ds => ds | None => [] end;
        _tf_idf_results := match p_results obj with
                           | Some r => r
                           | None => []
                           end;
        _results_up_to_date := _results_up_to_date self;
        _compute_on_add := _compute_on_add self |}).
Proof.
  intros Hp Hden Hget. unfold load. destruct p; [congruence|].
  unfold load_try, open_rb. now rewrite Hden, Hget.
Qed.

(** C8.  [load] never raises; whenever it returns [False] the engine is
    as it was before the call, and it returns [False] on an empty path, a
    file that is missing or cannot be opened, content that does not
    unpickle, and an unpickled object that is no payload.  [export]
    reports every storage failure as [False]: the only exception it can
    let through is one raised by the recomputation it forces in lazy
    mode, and on a well-formed dataset that recomputation raises
    nothing, so the call returns a boolean. *)
Theorem storage_failures_return_false (self : engine) (w : world)
  (file_path : string) (include_dataset : bool) :
  (exists b, fst (load self w file_path) = Returned b
             /\ (b = false -> snd (load self w file_path) = self))
  /\ (load_fails w file_path -> load self w file_path = (Returned false, self))
  /\ (forall e, fst (export self w file_path include_dataset) = Raised e ->
                fst (compute_unless_on_add self) = Raised e)
  /\ (wf_dataset (_dataset self) ->
      (exists b, fst (export self w file_path include_dataset) = Returned b)
      /\ (export_storage_fails w file_path ->
          fst (export self w file_path include_dataset) = Returned false)).
Proof.
  split; [apply load_returns|].
  split; [apply load_fails_false|].
  split; [apply export_raises_from_recompute|].
  intros Hwf.
  pose proof (compute_unless_on_add_returns self Hwf) as Hret.
  split; [|now apply export_storage_fails_false].
  destruct (fst (export self w file_path include_dataset)) as [b|e] eqn:E;
    eauto.
  apply export_raises_from_recompute in E. congruence.
Qed.

(** C9.  After an [export] with [include_dataset] true that returned
    [True], a [load] of the same path into a fresh engine returns [True]
    and leaves that engine with the [_tf_idf_results] and the [_dataset]
    the exporting engine has after the call; the dataset is also the one
    it had before the call (the results are those of the recomputation
    that [export] forces in lazy mode). *)
Theorem export_load_round_trip (self : engine) (w : world)
  (file_path : string) (compute_on_add : bool) :
  fst (export self w file_path true) = Returned true ->
  let self1 := fst (snd (export self w file_path true)) in
  let w1 := snd (snd (export self w file_path true)) in
  let fresh := snd (load (TfIdf compute_on_add) w1 file_path) in
  fst (load (TfIdf compute_on_add) w1 file_path) = Returned true
  /\ _tf_idf_results fresh = _tf_idf_results self1
  /\ _dataset fresh = _dataset self1
  /\ _dataset self1 = _dataset self.
Proof.
  intros Hex. simpl.
  destruct (export_true_stores self w file_path true Hex)
    as (Hself & Hget & Hden).
  assert (Hp : file_path <> EmptyString).
  { intros ->. discriminate. }
  rewrite (load_pickled _ _ _ _ Hp Hden Hget). simpl.
  repeat split. apply export_dataset.
Qed.
End StateTransfer.

(** ** Real arithmetic for the worked example *)

Section RealBounds.
Local Open Scope R_scope.

Lemma ln_below_chord (x : R) : 0 < x -> x <> 1 -> ln x < x - 1.
Proof.
  intros Hpos Hne.
  assert (H : 1 + (x - 1) < exp (x - 1)) by (apply exp_ineq1; lra).
  replace (1 + (x - 1)) with x in H by ring.
  apply ln_increasing in H; auto. now rewrite ln_exp in H.
Qed.

Lemma pow_ratio (a b : Z) (n : nat) :
  (0 < b)%Z -> (IZR a / IZR b) ^ n = IZR (a ^ Z.of_nat n) / IZR (b ^ Z.of_nat n).
Proof.
  intros Hb. unfold Rdiv. rewrite Rpow_mult_distr, pow_inv, !pow_IZR.
  reflexivity.
Qed.

Lemma ln_2_upper : ln 2 < 0.696.
Proof.
  set (r := IZR 1005431 / IZR 1000000).
  assert (Hr : 0 < r) by (unfold r; lra).
  assert (Hpow : 2 < r ^ 128).
  { unfold r. rewrite pow_ratio by lia.
    apply Rmult_lt_reg_r with (IZR (1000000 ^ Z.of_nat 128)).
    - apply IZR_lt. now vm_compute.
    - unfold Rdiv. rewrite Rmult_assoc, Rinv_l, Rmult_1_r.
      + rewrite <- mult_IZR. apply IZR_lt. now vm_compute.
      + apply not_0_IZR. now vm_compute. }
  apply ln_increasing in Hpow; [|lra].
  rewrite ln_pow in Hpow by assumption.
  rewrite INR_IZR_INZ in Hpow. simpl Z.of_nat in Hpow.
  assert (Hc : ln r < r - 1) by (apply ln_below_chord; unfold r; lra).
  unfold r in *. lra.
Qed.

Lemma ln_2_lower : 0.690 < ln 2.
Proof.
  set (s := IZR 1005429 / IZR 1000000).
  assert (Hs : 0 < s) by (unfold s; lra).
  assert (Hpow : s ^ 128 < 2).
  { unfold s. rewrite pow_ratio by lia.
    apply Rmult_lt_reg_r with (IZR (1000000 ^ Z.of_nat 128)).
    - apply IZR_lt. now vm_compute.
    - unfold Rdiv. rewrite Rmult_assoc, Rinv_l, Rmult_1_r.
      + rewrite <- mult_IZR. apply IZR_lt. now vm_compute.
      + apply not_0_IZR. now vm_compute. }
  apply ln_increasing in Hpow; [|now apply pow_lt].
  rewrite ln_pow in Hpow by assumption.
  rewrite INR_IZR_INZ in Hpow. simpl Z.of_nat in Hpow.
  assert (Hc : ln (/ s) < / s - 1).
  { apply ln_below_chord.
    - now apply Rinv_0_lt_compat.
    - unfold s. intros H. apply (f_equal Rinv) in H.
      rewrite Rinv_inv, Rinv_1 in H. lra. }
  rewrite ln_Rinv in Hc by assumption.
  assert (Hinv : / s = IZR 1000000 / IZR 1005429).
  { unfold s. field. }
  rewrite Hinv in Hc. lra.
Qed.

Lemma ln_half : ln (1 / 2) = - ln 2.
Proof. unfold Rdiv. rewrite Rmult_1_l. apply ln_Rinv. lra. Qed.

Lemma ln_one_ratio : ln (2 / 2) = 0.
Proof. replace (2 / 2) with 1 by lra. apply ln_1. Qed.
End RealBounds.

(** ** The worked examples *)

Section WorkedExamples.
Local Open Scope string_scope.

Ltac distinct_keys :=
  repeat (constructor; [simpl; intuition discriminate|]); constructor.

Ltac real_cbv :=
  cbv - [Rplus Rmult Rdiv Rinv Ropp IZR ln Rlt_dec Rlt].

Ltac case_Rlt :=
  match goal with
  | |- context [Rlt_dec ?a ?b] => destruct (Rlt_dec a b)
  end.

Lemma RFloat_strict_weak_order (l : list (string * R)) :
  strict_weak_order_on (PF := RFloat) l.
Proof.
  split.
  - intros [kx x] [ky y] _ _. simpl.
    repeat case_Rlt; intros H; try discriminate H; try reflexivity.
    exfalso; lra.
  - intros [kx x] [ky y] [kz z] _ _ _. simpl.
    repeat case_Rlt; intros H; try discriminate H; auto.
    exfalso; lra.
Qed.

Lemma wf_doc1_doc2 (b : bool) : wf_dataset (_dataset (doc1_doc2 b)).
Proof.
  destruct b; split; simpl.
  1,3: distinct_keys.
  all: repeat constructor; simpl; try lia; intuition discriminate.
Qed.

(** C3 (amended).  In the worked example, in eager as in lazy mode,
    [score_document(["b"])] returns the single pair
    [("doc1", TF(b, doc1) * IDF(b))], a score between 0.230 and 0.232;
    [score_document(["a"])] returns the two pairs [("doc1", 0)] and
    [("doc2", 0)], in this order: a weight of zero still makes an
    entry. *)
Theorem worked_example_scores (compute_on_add : bool) :
  let self := doc1_doc2 compute_on_add in
  let doc1 := {| nr_terms := 3; term_count := [("a", 2); ("b", 1)] |} in
  let w := fmul (TF (PF := RFloat) doc1 "b") (IDF (_dataset self) "b") in
  Dict.get "doc1" (_dataset self) = Some doc1
  /\ fst (score_document (PS := FifoSet) self ["b"]) = Returned [("doc1", w)]
  /\ (0.230 < w < 0.232)%R
  /\ fst (score_document (PS := FifoSet) self ["a"])
     = Returned [("doc1", 0%R); ("doc2", 0%R)].
Proof.
  pose proof ln_2_upper as Hu. pose proof ln_2_lower as Hl.
  pose proof ln_half as Hh. pose proof ln_one_ratio as Ho.
  destruct compute_on_add; real_cbv.
  all: split; [reflexivity|].
  all: split; [do 3 f_equal; lra|].
  all: split; [rewrite Hh; lra|].
  all: rewrite Ho.
  all: destruct (Rlt_dec _ _) as [H|H]; [exfalso; lra|].
  all: repeat f_equal; lra.
Qed.

(** C3, counterexample to the statement as written: scoring [["a"]] in
    the worked example does not return the empty list. *)
Lemma worked_example_zero_scores_listed :
  fst (score_document (PS := FifoSet) (doc1_doc2 true) ["a"])
  <> Returned [].
Proof.
  real_cbv.
  match goal with
  | |- context [Rlt_dec ?x ?y] => destruct (Rlt_dec x y)
  end; discriminate.
Qed.

(** C2, counterexample to the statement as written: an engine that
    loaded results without a dataset and then added document [d1]
    performs a recomputation, and afterwards [_tf_idf_results] still
    holds the loaded entry for term [x] and document [d0], a document the
    dataset does not have. *)
Lemma recompute_keeps_loaded_entries :
  fst (export (PS := FifoSet) exporter disk0 "out/weights.pkl" false)
  = Returned true
  /\ fst (load (PF := RFloat) (TfIdf false) disk1 "out/weights.pkl")
     = Returned true
  /\ _results_up_to_date importer = true
  /\ fst (_compute_results (PS := FifoSet) importer) = Returned tt
  /\ contains (_dataset importer) "x" "d0" = false
  /\ tf_idf_table (PF := RFloat) (_dataset importer) "x" "d0" = None
  /\ weight_at
       (_tf_idf_results (snd (_compute_results (PS := FifoSet) importer)))
       "x" "d0"
     = Some (1 / 1 * (-1 * ln (1 / 1)))%R.
Proof. repeat split. Qed.

Lemma recompute_overwrites_in_place_witness :
  NoDup (Dict.keys (_dataset (doc1_doc2 false)))
  /\ _results_up_to_date (doc1_doc2 false) = true
  /\ fst (_compute_results (PS := FifoSet) (doc1_doc2 false)) = Returned tt
  /\ weight_at
       (_tf_idf_results
          (snd (_compute_results (PS := FifoSet) (doc1_doc2 false))))
       "b" "doc1"
     = tf_idf_table (PF := RFloat) (_dataset (doc1_doc2 false)) "b" "doc1".
Proof.
  assert (H1 : NoDup (Dict.keys (_dataset (doc1_doc2 false))))
    by (simpl; distinct_keys).
  assert (H2 : _results_up_to_date (doc1_doc2 false) = true)
    by reflexivity.
  assert (H3 : fst (_compute_results (PS := FifoSet) (doc1_doc2 false))
               = Returned tt) by reflexivity.
  split; [exact H1|]. split; [exact H2|]. split; [exact H3|].
  destruct (recompute_overwrites_in_place (PS := FifoSet)
              (doc1_doc2 false) "b" "doc1" H1 H2 H3) as (_ & Hexact & _).
  apply Hexact. intros t d H. simpl in H. now elim H.
Defined.

Lemma score_document_ranking_witness :
  wf_dataset (_dataset (doc1_doc2 true))
  /\ (let self1 :=
        snd (score_document (PS := FifoSet) (doc1_doc2 true) ["a"; "c"]) in
      let doc_sums := doc_sums_of (_tf_idf_results self1) ["a"; "c"] in
      strict_weak_order_on doc_sums
      /\ exists ranked,
          fst (score_document (PS := FifoSet) (doc1_doc2 true) ["a"; "c"])
          = Returned ranked
          /\ Permutation doc_sums ranked
          /\ descending ranked
          /\ (forall x, In x doc_sums ->
                        filter (tied (snd x)) ranked
                        = filter (tied (snd x)) doc_sums)
          /\ fst (score_document (PS := FifoSet) self1 ["a"; "c"])
             = Returned ranked).
Proof.
  split; [apply (wf_doc1_doc2 true)|].
  split; [apply RFloat_strict_weak_order|].
  apply (score_document_ranking (PS := FifoSet) (doc1_doc2 true) ["a"; "c"]
           (wf_doc1_doc2 true) (RFloat_strict_weak_order _)).
Defined.

(** C6, counterexample to the statement as written: after
    [add_document("d", [])] the dataset holds a document with
    [nr_terms == 0], and [_tf] over it returns (an empty table for [d])
    instead of dividing by zero. *)
Lemma empty_document_tf_returns :
  fst (add_document (PF := RFloat) (PS := FifoSet) (TfIdf true) "d" [])
  = Returned tt
  /\ Dict.get "d" (_dataset empty_doc_engine)
     = Some {| nr_terms := 0; term_count := [] |}
  /\ _tf empty_doc_engine = Returned [("d", [])].
Proof. repeat split. Qed.

Lemma empty_document_divides_nothing_witness :
  let self :=
    fst (run (PS := FifoSet) [AddDocument "doc1" ["a"]] (TfIdf true, disk0)) in
  let self1 := snd (add_document (PS := FifoSet) self "empty" []) in
  batches "empty" [AddDocument "doc1" ["a"]] = []
  /\ (forall name doc, In (name, doc) (_dataset (doc1_doc2 true)) ->
                       0 < nr_terms doc)
  /\ Dict.get "empty" (_dataset self1)
     = Some {| nr_terms := 0; term_count := [] |}
  /\ (exists tfs, _tf self1 = Returned tfs
                  /\ Dict.get "empty" tfs = Some [])
  /\ exists tfs, _tf (doc1_doc2 true) = Returned tfs.
Proof.
  intros self self1.
  assert (Hb : batches "empty" [AddDocument "doc1" ["a"]] = [])
    by reflexivity.
  assert (Hpos : forall name doc,
             In (name, doc) (_dataset (doc1_doc2 true)) -> 0 < nr_terms doc).
  { simpl. intros name doc [H|[H|[]]]; inversion H; simpl; lia. }
  destruct (empty_document_divides_nothing (PF := RFloat) (PS := FifoSet)
              true disk0 [AddDocument "doc1" ["a"]] "empty"
              (doc1_doc2 true))
    as (_ & Hnew & (tfs & Htfs & Hget) & _ & Hret).
  split; [exact Hb|]. split; [exact Hpos|].
  split; [exact (Hnew Hb)|].
  split; [exists tfs; split; [exact Htfs | exact (Hget Hb)]|].
  exact (Hret Hpos).
Defined.

Lemma storage_failures_return_false_witness :
  load_fails disk0 "weights.pkl"
  /\ wf_dataset (_dataset (doc1_doc2 true))
  /\ export_storage_fails disk0 "weights.pkl"
  /\ load (doc1_doc2 true) disk0 "weights.pkl"
     = (Returned false, doc1_doc2 true)
  /\ fst (export (PS := FifoSet) (doc1_doc2 true) disk0 "weights.pkl" true)
     = Returned false.
Proof.
  assert (H1 : load_fails disk0 "weights.pkl")
    by (right; right; left; reflexivity).
  assert (H2 : export_storage_fails disk0 "weights.pkl")
    by (right; left; split; [reflexivity | now exists OSError]).
  destruct (storage_failures_return_false (PS := FifoSet)
              (doc1_doc2 true) disk0 "weights.pkl" true)
    as (_ & Hload & _ & Hexport).
  destruct (Hexport (wf_doc1_doc2 true)) as [_ Hfalse].
  split; [exact H1|]. split; [apply (wf_doc1_doc2 true)|].
  split; [exact H2|]. split; [exact (Hload H1) | exact (Hfalse H2)].
Defined.

Lemma export_load_round_trip_witness :
  fst (export (PS := FifoSet) exporter disk0 "out/weights.pkl" true)
  = Returned true
  /\ (let self1 :=
        fst (snd (export (PS := FifoSet) exporter disk0
                    "out/weights.pkl" true)) in
      let w1 :=
        snd (snd (export (PS := FifoSet) exporter disk0
                    "out/weights.pkl" true)) in
      let fresh := snd (load (PF := RFloat) (TfIdf true) w1 "out/weights.pkl") in
      fst (load (PF := RFloat) (TfIdf true) w1 "out/weights.pkl") = Returned true
      /\ _tf_idf_results fresh = _tf_idf_results self1
      /\ _dataset fresh = _dataset self1
      /\ _dataset self1 = _dataset exporter).
Proof.
  assert (H : fst (export (PS := FifoSet) exporter disk0
                     "out/weights.pkl" true) = Returned true)
    by reflexivity.
  split; [exact H|].
  exact (export_load_round_trip (PS := FifoSet) exporter disk0
           "out/weights.pkl" true H).
Defined.
End WorkedExamples.

(* ================================================================== *)
(** * Further properties of the engine *)

(** ** The frequency tables *)

Section FrequencyTables.
Context {PF : PyFloat} {PS : PySet}.

Lemma tf_entry_keys (self : engine) (tfs : frequencies_t) (name : string)
  (doc : document) (fs : list (string * float)) :
  _tf self = Returned tfs ->
  Dict.get name (_dataset self) = Some doc ->
  Dict.get name tfs = Some fs ->
  Dict.keys fs = Dict.keys (term_count doc).
Proof.
  unfold _tf. intros Htf Hdoc Hfs.
  apply (DictFacts.get_traverse _ _ _ name) in Htf. rewrite Hdoc in Htf.
  destruct Htf as (fs' & Hfs' & Hget). rewrite Hget in Hfs.
  inversion Hfs; subst. now apply DictFacts.keys_traverse in Hfs'.
Qed.

(** X1.  On a well-formed dataset [_tf] returns a table with the
    documents of the dataset, in the same order; the entry of a document
    lists its terms in the order of its [term_count] and gives each the
    quotient [term_count[t] / nr_terms]; no other term has a frequency. *)
Theorem tf_table (self : engine) :
  wf_dataset (_dataset self) ->
  exists tfs,
    _tf self = Returned tfs
    /\ Dict.keys tfs = Dict.keys (_dataset self)
    /\ forall name,
         match Dict.get name (_dataset self) with
         | None => Dict.get name tfs = None
         | Some doc =>
             exists fs,
               Dict.get name tfs = Some fs
               /\ Dict.keys fs = Dict.keys (term_count doc)
               /\ forall t,
                    Dict.get t fs
                    = match Dict.get t (term_count doc) with
                      | Some c => Some (fdiv c (nr_terms doc))
                      | None => None
                      end
         end.
Proof.
  intros Hwf. destruct (tf_returns_wf self Hwf) as [tfs Htf].
  exists tfs. split; auto. split; [now apply tf_keys|].
  intros name. pose proof (tf_get self tfs name Htf) as Hget.
  destruct (Dict.get name (_dataset self)) as [doc|] eqn:Hdoc; auto.
  destruct Hget as (fs & Hfs & Hterm). exists fs.
  split; auto. split; [eapply tf_entry_keys; eauto|].
  intros t. rewrite Hterm. unfold Dict.mem, TF, Dict.get_or.
  now destruct (Dict.get t (term_count doc)).
Qed.

(** X2.  [_idf] returns on every dataset, the empty one included (it
    never divides by a zero number of documents).  A term has an entry
    exactly when some document holds it, the entry is
    [-1 * log(docFreq / N)], and the quotient handed to [math.log] has
    [1 <= docFreq <= N].  None of this depends on the order in which
    Python iterates the sets of terms. *)
Theorem idf_table (self : engine) :
  exists idfs,
    _idf self = Returned idfs
    /\ NoDup (Dict.keys idfs)
    /\ forall t,
         0 <= doc_freq (_dataset self) t
              <= Z.of_nat (List.length (_dataset self))
         /\ Dict.get t idfs
            = if doc_freq (_dataset self) t =? 0 then None
              else Some (fmul (of_int (-1))
                           (flog (fdiv (doc_freq (_dataset self) t)
                                    (Z.of_nat (List.length (_dataset self)))))).
Proof.
  destruct (idf_returns self) as [idfs Hidf]. exists idfs.
  split; auto. split; [eapply idf_keys_NoDup; eauto|].
  intros t. split.
  - split; [apply doc_freq_nonneg | apply doc_freq_le_length].
  - now rewrite (idf_get self idfs t Hidf).
Qed.

Lemma get_le_sum_values (d : list (string * Z)) (t : string) (c : Z) :
  Forall (fun v => 0 < v) (Dict.values d) ->
  Dict.get t d = Some c -> c <= sum_values d.
Proof.
  unfold sum_values.
  induction d as [|[k v] r IH]; simpl; [discriminate|].
  intros Hpos Hget. inversion Hpos as [|? ? Hv Hr]; subst.
  assert (Hnn : 0 <= fold_right Z.add 0 (Dict.values r)).
  { clear - Hr. induction Hr; simpl; lia. }
  destruct (String.eqb t k).
  - inversion Hget; subst. lia.
  - specialize (IH Hr Hget). lia.
Qed.

(** X3.  In every engine built from a fresh one by calls, each count of
    a document is at least 1 and at most the document's [nr_terms], and
    a document has [nr_terms == 0] exactly when it counts no term: the
    numerator and the denominator of every term frequency are in range. *)
Theorem counts_within_totals (compute_on_add : bool) (w : world)
  (calls : list call) (name : string) (doc : document) :
  Dict.get name (_dataset (fst (run calls (TfIdf compute_on_add, w))))
  = Some doc ->
  (forall t c, Dict.get t (term_count doc) = Some c ->
               1 <= c <= nr_terms doc)
  /\ (nr_terms doc = 0 <-> term_count doc = []).
Proof.
  intros Hget.
  destruct (built_engine_invariants compute_on_add w calls) as [Hwf _].
  destruct (wf_dataset_get _ _ _ Hwf Hget) as (Hnd & Hpos & Hsum).
  split.
  - intros t c Hc. pose proof (get_positive _ _ _ Hpos Hc).
    pose proof (get_le_sum_values _ _ _ Hpos Hc). lia.
  - split.
    + intros Hz. apply sum_positive_zero; auto. congruence.
    + intros Hnil. rewrite Hsum, Hnil. reflexivity.
Qed.

(** X4.  [_compute_results] fails only by a division by zero, exactly
    when the flag is set and some document has [nr_terms == 0] while it
    counts a term; and a failed recomputation has modified nothing: the
    tables are computed before the first weight is written. *)
Theorem recompute_fails_untouched (self : engine) :
  ((exists e, fst (_compute_results self) = Raised e)
   <-> _results_up_to_date self = true
       /\ exists name doc, In (name, doc) (_dataset self)
                           /\ nr_terms doc = 0 /\ term_count doc <> [])
  /\ forall e, fst (_compute_results self) = Raised e ->
               e = ZeroDivisionError /\ snd (_compute_results self) = self.
Proof.
  split.
  - rewrite <- tf_raises_iff. unfold _compute_results.
    destruct (_results_up_to_date self); simpl.
    + destruct (_tf self) as [tfs|e] eqn:Htf; simpl.
      * destruct (idf_returns self) as [idfs ->]. simpl.
        split; [intros [e He]; discriminate
               | intros [_ [e He]]; discriminate].
      * split; eauto.
    + split; [intros [e He]; discriminate | intros [H _]; discriminate].
  - intros e He. split; [|eapply compute_results_raised; eauto].
    unfold _compute_results in He.
    destruct (_results_up_to_date self); [|discriminate].
    destruct (_tf self) as [tfs|e'] eqn:Htf.
    + destruct (idf_returns self) as [idfs Hidf]. rewrite Hidf in He.
      discriminate.
    + simpl in He. inversion He; subst.
      eapply tf_raises_ZeroDivisionError; eauto.
Qed.

(** X5.  Recomputations repeated any number of times on the engine a
    first one left return the same outcome and leave the same engine,
    weights and their order included. *)
Theorem recompute_repeated (self : engine) (n : nat) :
  NoDup (Dict.keys (_dataset self)) ->
  let again := fun e : engine => snd (_compute_results e) in
  Nat.iter n again (again self) = again self
  /\ _compute_results (Nat.iter n again (again self))
     = (fst (_compute_results self), again self).
Proof.
  intros Hnd again.
  assert (Hiter : Nat.iter n again (again self) = again self).
  { induction n as [|n IH]; simpl; auto.
    rewrite IH. unfold again.
    now rewrite compute_results_idempotent. }
  split; auto. rewrite Hiter. unfold again.
  now apply compute_results_idempotent.
Qed.
End FrequencyTables.

(** ** The document store under calls *)

Section StoreUnderCalls.
Context {PF : PyFloat} {PS : PySet}.

Lemma occurrences_nonneg (t : string) (ts : list string) :
  0 <= occurrences t ts.
Proof. unfold occurrences. lia. Qed.

Lemma occurrences_app (t : string) (ts ts' : list string) :
  occurrences t (ts ++ ts') = occurrences t ts + occurrences t ts'.
Proof. unfold occurrences. rewrite count_occ_app. lia. Qed.

Lemma mem_Counter (t : string) (ts : list string) :
  Dict.mem t (Counter ts) = (0 <? occurrences t ts).
Proof.
  pose proof (get_or_Counter ts t) as Hget.
  pose proof (Counter_positive ts) as Hpos.
  unfold Dict.mem, Dict.get_or in *.
  destruct (Dict.get t (Counter ts)) as [v|] eqn:E.
  - pose proof (get_positive _ _ _ Hpos E). rewrite <- Hget.
    symmetry. apply Z.ltb_lt. lia.
  - rewrite <- Hget. reflexivity.
Qed.

Lemma grown_from_refl (doc : document) : grown_from doc doc.
Proof. split; [lia|]. intros t. split; [lia | auto]. Qed.

Lemma grown_from_trans (d1 d2 d3 : document) :
  grown_from d1 d2 -> grown_from d2 d3 -> grown_from d1 d3.
Proof.
  intros [H1 H1'] [H2 H2']. split; [lia|].
  intros t. destruct (H1' t), (H2' t). split; [lia | auto].
Qed.

Lemma starts_with_refl (l : list string) : starts_with l l.
Proof. exists []. now rewrite app_nil_r. Qed.

Lemma starts_with_trans (l1 l2 l3 : list string) :
  starts_with l1 l2 -> starts_with l2 l3 -> starts_with l1 l3.
Proof.
  intros [r1 ->] [r2 ->]. exists (r1 ++ r2). now rewrite app_assoc.
Qed.

Lemma merged_document_grown (doc : document) (ts : list string) :
  grown_from doc
    {| nr_terms := nr_terms doc + Z.of_nat (List.length ts);
       term_count := merge_counts (term_count doc) (Counter ts) |}.
Proof.
  split; simpl; [lia|]. intros t.
  rewrite get_or_merge_counts, get_or_Counter, mem_merge_counts.
  pose proof (occurrences_nonneg t ts).
  split; [lia | now intros ->].
Qed.

(** X6.  Whatever its outcome (the recomputation it triggers in eager
    mode may raise), [add_document] leaves under [doc_name] the old
    aggregate merged with the batch: [nr_terms] grown by [len(doc_terms)]
    and every count grown by the occurrences of its term in the batch,
    with an entry exactly for the terms counted before or occurring in the
    batch.  Every other document is untouched, the names keep their order
    (a new name goes last), and the flag [_results_up_to_date] is set. *)
Theorem add_document_effect (self : engine) (doc_name : string)
  (doc_terms : list string) :
  let old := match Dict.get doc_name (_dataset self) with
             | Some d => d
             | None => _new_doc
             end in
  let self1 := snd (add_document self doc_name doc_terms) in
  (exists doc,
     Dict.get doc_name (_dataset self1) = Some doc
     /\ nr_terms doc = nr_terms old + Z.of_nat (List.length doc_terms)
     /\ forall t,
          Dict.get t (term_count doc)
          = if Dict.mem t (term_count old) || (0 <? occurrences t doc_terms)
            then Some (Dict.get_or 0 t (term_count old)
                       + occurrences t doc_terms)
            else None)
  /\ (forall other, other <> doc_name ->
        Dict.get other (_dataset self1) = Dict.get other (_dataset self))
  /\ Dict.keys (_dataset self1)
     = (if Dict.mem doc_name (_dataset self) then Dict.keys (_dataset self)
        else Dict.keys (_dataset self) ++ [doc_name])
  /\ _results_up_to_date self1 = true.
Proof.
  intros old self1. unfold self1. rewrite add_document_dataset.
  fold old. split; [|split; [|split]].
  - eexists. split; [apply DictFacts.get_set_same|]. simpl.
    split; auto. intros t.
    now rewrite get_merge_counts, get_or_Counter, mem_Counter.
  - intros other Hne. apply DictFacts.get_set_other. congruence.
  - apply DictFacts.keys_set.
  - unfold add_document. simpl.
    destruct (_compute_on_add self); simpl; auto.
    now rewrite compute_results_flag.
Qed.

Lemma step_grows (st : engine * world) (c : call) :
  starts_with (Dict.keys (_dataset (fst st)))
              (Dict.keys (_dataset (fst (step st c))))
  /\ forall name doc,
       Dict.get name (_dataset (fst st)) = Some doc ->
       exists doc', Dict.get name (_dataset (fst (step st c))) = Some doc'
                    /\ grown_from doc doc'.
Proof.
  rewrite step_dataset.
  destruct c as [n ts| | |];
    try (split; [apply starts_with_refl
                | intros name doc H; eauto using grown_from_refl]).
  rewrite add_document_dataset. split.
  - rewrite DictFacts.keys_set.
    destruct (Dict.mem n (_dataset (fst st)));
      [apply starts_with_refl | now eexists].
  - intros name doc Hget.
    destruct (String.eqb_spec n name) as [->|Hne].
    + rewrite DictFacts.get_set_same, Hget.
      eexists. split; [reflexivity | apply merged_document_grown].
    + rewrite DictFacts.get_set_other by assumption.
      eauto using grown_from_refl.
Qed.

(** X7.  The dataset only grows: whatever calls are made on an engine,
    every document it had is still there, under the same name and at the
    same place in the order of the names, with an [nr_terms] and counts
    at least as large and with every term it counted still counted. *)
Theorem dataset_only_grows (calls : list call) (st : engine * world) :
  starts_with (Dict.keys (_dataset (fst st)))
              (Dict.keys (_dataset (fst (run calls st))))
  /\ forall name doc,
       Dict.get name (_dataset (fst st)) = Some doc ->
       exists doc', Dict.get name (_dataset (fst (run calls st))) = Some doc'
                    /\ grown_from doc doc'.
Proof.
  revert st. induction calls as [|c cs IH]; intros st.
  - split; [apply starts_with_refl|]. eauto using grown_from_refl.
  - simpl. destruct (step_grows st c) as [Hk Hd].
    destruct (IH (step st c)) as [Hk' Hd']. split.
    + eapply starts_with_trans; eauto.
    + intros name doc Hget. destruct (Hd _ _ Hget) as (d1 & H1 & G1).
      destruct (Hd' _ _ H1) as (d2 & H2 & G2).
      eauto using grown_from_trans.
Qed.

(** X8.  Adding a batch in two calls under the same name gives the same
    dataset as adding it in one: the same names in the same order, and
    for every document the same [nr_terms] and the same count for every
    term. *)
Theorem add_document_in_two_calls (self : engine) (doc_name : string)
  (ts1 ts2 : list string) :
  let twice :=
    snd (add_document (snd (add_document self doc_name ts1)) doc_name ts2) in
  let once := snd (add_document self doc_name (ts1 ++ ts2)) in
  Dict.keys (_dataset twice) = Dict.keys (_dataset once)
  /\ forall name,
       match Dict.get name (_dataset twice),
             Dict.get name (_dataset once) with
       | Some d2, Some d1 => same_counts d2 d1
       | None, None => True
       | _, _ => False
       end.
Proof.
  intros twice once. unfold twice, once.
  rewrite !add_document_dataset.
  rewrite DictFacts.get_set_same. simpl.
  set (old := match Dict.get doc_name (_dataset self) with
              | Some d => d
              | None => _new_doc
              end).
  split.
  - rewrite !DictFacts.keys_set.
    unfold Dict.mem at 1. rewrite DictFacts.get_set_same.
    destruct (Dict.mem doc_name (_dataset self)) eqn:E; auto.
  - intros name. destruct (String.eqb_spec doc_name name) as [->|Hne].
    + rewrite !DictFacts.get_set_same. split; simpl.
      * rewrite length_app. lia.
      * intros t. rewrite !get_merge_counts, !get_or_merge_counts.
        rewrite !mem_merge_counts, !get_or_Counter, !mem_Counter.
        rewrite occurrences_app.
        pose proof (occurrences_nonneg t ts1).
        pose proof (occurrences_nonneg t ts2).
        destruct (Dict.mem t (term_count old)); simpl;
          [f_equal; lia|].
        destruct (Z.ltb_spec 0 (occurrences t ts1)),
          (Z.ltb_spec 0 (occurrences t ts2)),
          (Z.ltb_spec 0 (occurrences t ts1 + occurrences t ts2));
          simpl; try lia; f_equal; lia.
    + rewrite !DictFacts.get_set_other by assumption.
      destruct (Dict.get name (_dataset self)); auto.
      split; auto.
Qed.
End StoreUnderCalls.

(** ** Which results scoring reads *)

Section ResultsRead.
Context {PF : PyFloat} {PS : PySet}.





(** X11.  When the engine is in eager mode, or its flag
    [_results_up_to_date] is unset (as in a fresh engine, also after a
    [load]), [score_document] recomputes nothing: it never raises, leaves
    the engine exactly as it found it, whatever its dataset, and ranks
    from the results the engine holds.  So a fresh engine that loaded a
    payload scores with the loaded results as they are. *)
Theorem scoring_without_recomputation (self : engine) (w : world)
  (file_path : string) (doc_terms : list string) (b : bool) :
  (_compute_on_add self = true \/ _results_up_to_date self = false ->
   score_document self doc_terms
   = (Returned (sorted_reverse
                  (doc_sums_of (_tf_idf_results self) doc_terms)),
      self))
  /\ (let loaded := snd (load (TfIdf b) w file_path) in
      score_document loaded doc_terms
      = (Returned (sorted_reverse
                     (doc_sums_of (_tf_idf_results loaded) doc_terms)),
         loaded)).
Proof.
  assert (Hgen : forall s : engine,
             _compute_on_add s = true \/ _results_up_to_date s = false ->
             score_document s doc_terms
             = (Returned (sorted_reverse
                            (doc_sums_of (_tf_idf_results s) doc_terms)),
                s)).
  { intros s Hs. unfold score_document, compute_unless_on_add.
    destruct (_compute_on_add s) eqn:E; simpl; auto.
    destruct Hs as [Hs|Hs]; [discriminate|].
    now rewrite compute_results_skipped. }
  split; [apply Hgen|].
  simpl. apply Hgen. right.
  unfold load. destruct file_path as [|c p]; auto.
  unfold load_try. destruct (open_rb w (String c p)) as [f|]; auto.
  destruct (pickle_load f) as [[pl|]|]; auto.
Qed.
End ResultsRead.

(** ** The scores *)

Section Scores.
Context {PF : PyFloat} {PS : PySet}.
Implicit Types (sums ws : weights_t) (r : results_t) (d : string).

Lemma get_accumulate (count : Z) sums (entry : string * float) d :
  Dict.get d (accumulate count sums entry)
  = if String.eqb d (fst entry)
    then Some (fadd (Dict.get_or (of_int 0) d sums)
                    (fmul (of_int count) (snd entry)))
    else Dict.get d sums.
Proof.
  unfold accumulate. destruct entry as [d0 w0]. simpl.
  destruct (String.eqb_spec d d0) as [->|Hne].
  - rewrite DictFacts.get_set_same. do 2 f_equal.
    unfold Dict.mem. destruct (Dict.get d0 sums) eqn:E; auto.
    unfold Dict.get_or. now rewrite DictFacts.get_set_same, E.
  - rewrite DictFacts.get_set_other by congruence.
    destruct (Dict.mem d0 sums); auto.
    rewrite DictFacts.get_set_other by congruence. reflexivity.
Qed.

Lemma NoDup_keys_accumulate (count : Z) sums (entry : string * float) :
  NoDup (Dict.keys sums) -> NoDup (Dict.keys (accumulate count sums entry)).
Proof.
  intros H. unfold accumulate. apply DictFacts.NoDup_keys_set.
  destruct (Dict.mem (fst entry) sums); auto.
  now apply DictFacts.NoDup_keys_set.
Qed.

Lemma get_accumulate_all (count : Z) ws sums d :
  NoDup (Dict.keys ws) ->
  Dict.get d (fold_left (accumulate count) ws sums)
  = match Dict.get d ws with
    | Some w => Some (fadd (Dict.get_or (of_int 0) d sums)
                           (fmul (of_int count) w))
    | None => Dict.get d sums
    end.
Proof.
  revert sums. induction ws as [|[d0 w0] ws IH]; intros sums Hnd; auto.
  simpl in Hnd. inversion Hnd as [|? ? Hnot Hnd']; subst.
  simpl fold_left. rewrite IH by assumption.
  simpl Dict.get at 2. destruct (String.eqb_spec d d0) as [->|Hne].
  - apply DictFacts.get_None_iff in Hnot. rewrite Hnot.
    rewrite get_accumulate. simpl. now rewrite String.eqb_refl.
  - unfold Dict.get_or. rewrite get_accumulate. simpl.
    destruct (String.eqb_spec d d0); [contradiction|]. reflexivity.
Qed.

Lemma NoDup_keys_accumulate_all (count : Z) ws sums :
  NoDup (Dict.keys sums) ->
  NoDup (Dict.keys (fold_left (accumulate count) ws sums)).
Proof.
  revert sums. induction ws as [|e ws IH]; intros sums H; auto.
  simpl. apply IH. now apply NoDup_keys_accumulate.
Qed.

Lemma get_doc_sums (r : results_t) (qs : list (string * Z)) sums d :
  weights_are_dicts r ->
  Dict.get d (fold_left (score_round r) qs sums)
  = fold_left
      (fun acc q =>
         match weight_at r (fst q) d with
         | Some w =>
             Some (fadd (match acc with Some a => a | None => of_int 0 end)
                        (fmul (of_int (snd q)) w))
         | None => acc
         end)
      qs (Dict.get d sums).
Proof.
  intros Hdicts. revert sums.
  induction qs as [|[t c] qs IH]; intros sums; auto.
  simpl fold_left. rewrite IH. f_equal.
  unfold score_round, weight_at. simpl.
  destruct (Dict.get t r) as [ws|] eqn:E; auto.
  rewrite get_accumulate_all.
  - unfold Dict.get_or. now destruct (Dict.get d ws).
  - apply DictFacts.get_Some_In in E.
    unfold weights_are_dicts in Hdicts. rewrite Forall_forall in Hdicts.
    apply (Hdicts _ E).
Qed.

Lemma NoDup_keys_doc_sums (r : results_t) (qs : list (string * Z)) sums :
  NoDup (Dict.keys sums) ->
  NoDup (Dict.keys (fold_left (score_round r) qs sums)).
Proof.
  revert sums. induction qs as [|q qs IH]; intros sums H; auto.
  simpl. apply IH. unfold score_round.
  destruct (Dict.get (fst q) r); auto using NoDup_keys_accumulate_all.
Qed.

Lemma doc_sums_of_rounds (r : results_t) (doc_terms : list string) :
  doc_sums_of r doc_terms = fold_left (score_round r) (Counter doc_terms) [].
Proof. reflexivity. Qed.

(** The weights written by a recomputation keep every list of weights a
    dictionary. *)
Lemma store_keeps_dicts (t d : string) (w : float) (r : results_t) :
  weights_are_dicts r -> weights_are_dicts (store t d w r).
Proof.
  intros H. unfold store, weights_are_dicts in *.
  assert (H1 : Forall (fun e : string * weights_t => NoDup (Dict.keys (snd e)))
                 (if Dict.mem t r then r else Dict.set t [] r)).
  { destruct (Dict.mem t r); auto.
    apply (Forall_set (fun ws : weights_t => NoDup (Dict.keys ws))); auto.
    constructor. }
  apply (Forall_set (fun ws : weights_t => NoDup (Dict.keys ws))); auto.
  apply DictFacts.NoDup_keys_set. unfold Dict.get_or.
  destruct (Dict.get t _) as [ws|] eqn:E; [|constructor].
  apply DictFacts.get_Some_In in E. rewrite Forall_forall in H1.
  apply (H1 _ E).
Qed.

Lemma apply_writes_keeps_dicts (ws : list (string * string * float))
  (r : results_t) :
  weights_are_dicts r -> weights_are_dicts (apply_writes ws r).
Proof.
  revert r. induction ws as [|[[t d] w] ws IH]; intros r H; auto.
  apply IH. now apply store_keeps_dicts.
Qed.

Lemma compute_results_keeps_dicts (self : engine) :
  weights_are_dicts (_tf_idf_results self) ->
  weights_are_dicts (_tf_idf_results (snd (_compute_results self))).
Proof.
  intros H. unfold _compute_results.
  destruct (_results_up_to_date self); auto.
  destruct (_tf self) as [tfs|]; auto.
  destruct (_idf self) as [idfs|]; auto. simpl.
  rewrite compute_loop_writes. now apply apply_writes_keeps_dicts.
Qed.

(** X12.  What [score_document] returns.  When the recomputation it may
    trigger does not raise, the list it returns names no document twice,
    and it pairs a document with a score exactly when [score_of] gives
    that score: starting from 0, every distinct query term that has a
    weight for the document adds, in order of first occurrence in the
    query, its number of occurrences times that weight.  A document gets
    no pair when no query term has a weight for it. *)
Theorem score_document_scores (self : engine) (doc_terms : list string) :
  weights_are_dicts (_tf_idf_results self) ->
  fst (compute_unless_on_add self) = Returned tt ->
  let self1 := snd (score_document self doc_terms) in
  exists ranked,
    fst (score_document self doc_terms) = Returned ranked
    /\ NoDup (Dict.keys ranked)
    /\ forall d s, In (d, s) ranked
                   <-> score_of (_tf_idf_results self1) doc_terms d = Some s.
Proof.
  intros Hdicts Hret. simpl.
  rewrite (score_document_returns self doc_terms Hret). simpl.
  set (r := _tf_idf_results (snd (compute_unless_on_add self))).
  assert (Hr : weights_are_dicts r).
  { unfold r, compute_unless_on_add.
    destruct (_compute_on_add self); simpl;
      auto using compute_results_keeps_dicts. }
  assert (Hnd : NoDup (Dict.keys (doc_sums_of r doc_terms))).
  { rewrite doc_sums_of_rounds. apply NoDup_keys_doc_sums. constructor. }
  pose proof (sorted_reverse_perm (doc_sums_of r doc_terms)) as Hperm.
  eexists. split; [reflexivity|]. split.
  - unfold Dict.keys in *. eapply Permutation_NoDup; [|exact Hnd].
    now apply Permutation_map.
  - intros d s. unfold score_of.
    pose proof (get_doc_sums r (Counter doc_terms) [] d Hr) as Hg.
    change (Dict.get d []) with (@None float) in Hg.
    rewrite <- Hg, <- doc_sums_of_rounds. split.
    + intros Hin. apply DictFacts.In_get_NoDup; auto.
      apply (Permutation_in _ (Permutation_sym Hperm) Hin).
    + intros Hget. apply (Permutation_in _ Hperm).
      now apply DictFacts.get_Some_In.
Qed.

Lemma doc_sums_unknown_terms (r : results_t) (qs : list (string * Z)) sums :
  (forall q, In q qs -> Dict.get (fst q) r = None) ->
  fold_left (score_round r) qs sums = sums.
Proof.
  revert sums. induction qs as [|q qs IH]; intros sums H; auto.
  simpl. unfold score_round at 2. rewrite (H q) by now left.
  apply IH. intros; apply H; now right.
Qed.

Lemma Counter_keys_in (ts : list string) (t : string) :
  In t (Dict.keys (Counter ts)) -> In t ts.
Proof.
  intros H. apply DictFacts.mem_true_iff in H.
  unfold Dict.mem in H.
  destruct (Dict.get t (Counter ts)) as [v|] eqn:E; [|discriminate].
  pose proof (get_positive _ _ _ (Counter_positive ts) E) as Hpos.
  pose proof (get_or_Counter ts t) as Hocc.
  unfold Dict.get_or in Hocc. rewrite E in Hocc.
  unfold occurrences in Hocc.
  apply (count_occ_In string_dec). lia.
Qed.

(** X13.  A query none of whose terms has an entry in the results the
    call reads (an empty query, a query of unseen terms, any query on an
    engine without results) gets the empty list: terms without an entry
    are skipped, they raise no [KeyError]. *)
Theorem score_document_unknown_terms (self : engine)
  (doc_terms : list string) :
  fst (compute_unless_on_add self) = Returned tt ->
  (forall t, In t doc_terms ->
             Dict.get t (_tf_idf_results (snd (compute_unless_on_add self)))
             = None) ->
  score_document self doc_terms
  = (Returned [], snd (compute_unless_on_add self)).
Proof.
  intros Hret Hunknown.
  rewrite (score_document_returns self doc_terms Hret).
  rewrite doc_sums_of_rounds, doc_sums_unknown_terms; auto.
  intros [t c] Hin. simpl. apply Hunknown, Counter_keys_in.
  unfold Dict.keys. change t with (fst (t, c)). now apply in_map.
Qed.
End Scores.

(** ** Exports and loads *)

Section ExportsAndLoads.
Context {PF : PyFloat} {PS : PySet}.

Lemma upto_last_sep_no_sep (p : string) :
  has_sep p = false -> upto_last_sep p = EmptyString.
Proof.
  induction p as [|c r IH]; simpl; auto.
  intros H. apply orb_false_iff in H. destruct H as [Hc Hr].
  now rewrite (IH Hr), Hc.
Qed.

Lemma dirname_no_sep (p : string) :
  has_sep p = false -> dirname p = EmptyString.
Proof.
  intros H. unfold dirname. now rewrite (upto_last_sep_no_sep p H).
Qed.

(** X14.  [export] to a path without a directory part (a bare file name
    such as [weights.pkl]) always returns [False]: [os.path.dirname]
    gives the empty string, which does not exist and which [os.makedirs]
    cannot create.  Nothing is written, and the engine is not even
    recomputed. *)
Theorem export_bare_file_name (self : engine) (w : world)
  (file_path : string) (include_dataset : bool) :
  has_sep file_path = false ->
  export self w file_path include_dataset = (Returned false, (self, w)).
Proof.
  intros H. unfold export. destruct file_path as [|c p]; auto.
  unfold ensure_dir. rewrite (dirname_no_sep _ H). reflexivity.
Qed.

(** X15.  A [load] of a file that an [export] wrote replaces both tables
    of the loading engine, whatever they held: the results become the
    exported results, the dataset becomes the exported dataset, or the
    empty dataset when the export left the dataset out.  The mode and the
    flag [_results_up_to_date] of the loading engine stay as they were. *)
Theorem load_replaces_both_tables (self loader : engine) (w : world)
  (file_path : string) (include_dataset : bool) :
  fst (export self w file_path include_dataset) = Returned true ->
  let self1 := fst (snd (export self w file_path include_dataset)) in
  let w1 := snd (snd (export self w file_path include_dataset)) in
  load loader w1 file_path
  = (Returned true,
     {| _dataset := if include_dataset then _dataset self else [];
        _tf_idf_results := _tf_idf_results self1;
        _results_up_to_date := _results_up_to_date loader;
        _compute_on_add := _compute_on_add loader |}).
Proof.
  intros Hex. simpl.
  destruct (export_true_stores self w file_path include_dataset Hex)
    as (Hself & Hget & Hden).
  assert (Hp : file_path <> EmptyString).
  { intros ->. discriminate. }
  rewrite (load_pickled _ _ _ _ Hp Hden Hget). simpl.
  rewrite export_dataset. now destruct include_dataset.
Qed.

Lemma write_file_other (w : world) (p q : string) (f : file) :
  q <> p -> Dict.get q (files (write_file w p f)) = Dict.get q (files w).
Proof. intros H. simpl. apply DictFacts.get_set_other. congruence. Qed.


(** X17.  An [export] that fails while writing has already truncated
    the file: when the destination can be opened but the payload cannot
    be written, [export] returns [False] and the file no longer
    unpickles, so a later [load] of it returns [False], whatever the
    file held before. *)
Theorem failed_export_spoils_file (self loader : engine) (w : world)
  (file_path : string) (include_dataset : bool) :
  fst (compute_unless_on_add self) = Returned tt ->
  path_exists w (dirname file_path) = true ->
  in_list (dirname file_path) (dirs w) = true ->
  in_list file_path (denied w) = false ->
  in_list file_path (dirs w) = false ->
  disk_full w = true ->
  let w1 := snd (snd (export self w file_path include_dataset)) in
  fst (export self w file_path include_dataset) = Returned false
  /\ Dict.get file_path (files w1) = Some Garbage
  /\ load loader w1 file_path = (Returned false, loader).
Proof.
  intros Hret Hex Hdir Hden Hnodir Hfull. simpl.
  assert (Hp : file_path <> EmptyString).
  { intros ->. discriminate. }
  rewrite export_unfold by assumption.
  unfold ensure_dir. rewrite Hex, Hret. simpl.
  unfold export_try, open_wb, pickle_dump.
  rewrite Hden, Hnodir, Hdir. simpl. rewrite Hfull. simpl.
  assert (Hget : Dict.get file_path (Dict.set file_path Garbage (files w))
                 = Some Garbage) by apply DictFacts.get_set_same.
  repeat split; auto.
  apply load_fails_false. right. right. right. left. exact Hget.
Qed.
End ExportsAndLoads.

(** ** The weights in real arithmetic *)

Section RealWeights.
Context {PS : PySet}.




End RealWeights.

(** ** The further properties on the worked examples *)

Section FurtherExamples.
Local Open Scope string_scope.

Ltac distinct_names :=
  repeat (constructor; [simpl; intuition discriminate|]); constructor.

Lemma doc1_doc2_dicts (b : bool) :
  weights_are_dicts (_tf_idf_results (doc1_doc2 b)).
Proof.
  destruct b; unfold weights_are_dicts; simpl;
    repeat (constructor; [simpl; distinct_names|]); constructor.
Qed.

Lemma tf_table_witness :
  wf_dataset (_dataset (doc1_doc2 true))
  /\ exists tfs,
       _tf (doc1_doc2 true) = Returned tfs
       /\ Dict.keys tfs = Dict.keys (_dataset (doc1_doc2 true))
       /\ forall name,
            match Dict.get name (_dataset (doc1_doc2 true)) with
            | None => Dict.get name tfs = None
            | Some doc =>
                exists fs,
                  Dict.get name tfs = Some fs
                  /\ Dict.keys fs = Dict.keys (term_count doc)
                  /\ forall t,
                       Dict.get t fs
                       = match Dict.get t (term_count doc) with
                         | Some c => Some (fdiv c (nr_terms doc))
                         | None => None
                         end
            end.
Proof.
  split; [apply (wf_doc1_doc2 true)|].
  exact (tf_table (doc1_doc2 true) (wf_doc1_doc2 true)).
Defined.

Lemma counts_within_totals_witness :
  let doc := {| nr_terms := 3; term_count := [("a", 2); ("b", 1)] |} in
  Dict.get "doc1"
    (_dataset (fst (run (PF := RFloat) (PS := FifoSet)
                      [AddDocument "doc1" ["a"; "a"; "b"]]
                      (TfIdf true, disk0))))
  = Some doc
  /\ (forall t c, Dict.get t (term_count doc) = Some c ->
                  1 <= c <= nr_terms doc)
  /\ (nr_terms doc = 0 <-> term_count doc = []).
Proof.
  intros doc.
  assert (H : Dict.get "doc1"
                (_dataset (fst (run (PF := RFloat) (PS := FifoSet)
                                  [AddDocument "doc1" ["a"; "a"; "b"]]
                                  (TfIdf true, disk0))))
              = Some doc) by reflexivity.
  split; [exact H|].
  exact (counts_within_totals (PF := RFloat) (PS := FifoSet) true disk0
           [AddDocument "doc1" ["a"; "a"; "b"]] "doc1" doc H).
Defined.

Lemma recompute_fails_untouched_witness :
  fst (_compute_results (PS := FifoSet) hand_made_engine)
  = Raised ZeroDivisionError
  /\ snd (_compute_results (PS := FifoSet) hand_made_engine)
     = hand_made_engine.
Proof.
  assert (H : fst (_compute_results (PS := FifoSet) hand_made_engine)
              = Raised ZeroDivisionError) by reflexivity.
  split; [exact H|].
  destruct (recompute_fails_untouched (PS := FifoSet) hand_made_engine)
    as [_ Hsame].
  exact (proj2 (Hsame _ H)).
Defined.

Lemma recompute_repeated_witness :
  NoDup (Dict.keys (_dataset (doc1_doc2 false)))
  /\ (let again :=
        fun e : engine => snd (_compute_results (PS := FifoSet) e) in
      Nat.iter 2 again (again (doc1_doc2 false)) = again (doc1_doc2 false)
      /\ _compute_results (PS := FifoSet)
           (Nat.iter 2 again (again (doc1_doc2 false)))
         = (fst (_compute_results (PS := FifoSet) (doc1_doc2 false)),
            again (doc1_doc2 false))).
Proof.
  assert (H : NoDup (Dict.keys (_dataset (doc1_doc2 false))))
    by (simpl; distinct_names).
  split; [exact H|].
  exact (recompute_repeated (PS := FifoSet) (doc1_doc2 false) 2 H).
Defined.



Lemma scoring_without_recomputation_witness :
  _results_up_to_date (snd (load (PF := RFloat) (TfIdf false) disk1
                              "out/weights.pkl")) = false
  /\ fst (load (PF := RFloat) (TfIdf false) disk1 "out/weights.pkl")
     = Returned true
  /\ (let loaded := snd (load (PF := RFloat) (TfIdf false) disk1
                           "out/weights.pkl") in
      score_document (PS := FifoSet) loaded ["x"]
      = (Returned (sorted_reverse
                     (doc_sums_of (_tf_idf_results loaded) ["x"])),
         loaded)).
Proof.
  split; [reflexivity|]. split; [reflexivity|].
  exact (proj2 (scoring_without_recomputation (PF := RFloat)
                  (PS := FifoSet) (TfIdf false) disk1 "out/weights.pkl"
                  ["x"] false)).
Defined.

Lemma score_document_scores_witness :
  weights_are_dicts (_tf_idf_results (doc1_doc2 true))
  /\ fst (compute_unless_on_add (PS := FifoSet) (doc1_doc2 true))
     = Returned tt
  /\ (let self1 :=
        snd (score_document (PS := FifoSet) (doc1_doc2 true) ["a"; "c"; "c"]) in
      exists ranked,
        fst (score_document (PS := FifoSet) (doc1_doc2 true) ["a"; "c"; "c"])
        = Returned ranked
        /\ NoDup (Dict.keys ranked)
        /\ forall d s,
             In (d, s) ranked
             <-> score_of (_tf_idf_results self1) ["a"; "c"; "c"] d = Some s).
Proof.
  assert (H : fst (compute_unless_on_add (PS := FifoSet) (doc1_doc2 true))
              = Returned tt) by reflexivity.
  split; [apply (doc1_doc2_dicts true)|]. split; [exact H|].
  exact (score_document_scores (PS := FifoSet) (doc1_doc2 true)
           ["a"; "c"; "c"] (doc1_doc2_dicts true) H).
Defined.

Lemma score_document_unknown_terms_witness :
  fst (compute_unless_on_add (PS := FifoSet) (doc1_doc2 true)) = Returned tt
  /\ (forall t, In t ["x"; "y"] ->
        Dict.get t
          (_tf_idf_results
             (snd (compute_unless_on_add (PS := FifoSet) (doc1_doc2 true))))
        = None)
  /\ score_document (PS := FifoSet) (doc1_doc2 true) ["x"; "y"]
     = (Returned [],
        snd (compute_unless_on_add (PS := FifoSet) (doc1_doc2 true))).
Proof.
  assert (H : fst (compute_unless_on_add (PS := FifoSet) (doc1_doc2 true))
              = Returned tt) by reflexivity.
  assert (Hu : forall t, In t ["x"; "y"] ->
             Dict.get t
               (_tf_idf_results
                  (snd (compute_unless_on_add (PS := FifoSet)
                          (doc1_doc2 true))))
             = None).
  { intros t [<-|[<-|[]]]; reflexivity. }
  split; [exact H|]. split; [exact Hu|].
  exact (score_document_unknown_terms (PS := FifoSet) (doc1_doc2 true)
           ["x"; "y"] H Hu).
Defined.

Lemma export_bare_file_name_witness :
  has_sep "weights.pkl" = false
  /\ export (PS := FifoSet) exporter disk0 "weights.pkl" true
     = (Returned false, (exporter, disk0)).
Proof.
  assert (H : has_sep "weights.pkl" = false) by reflexivity.
  split; [exact H|].
  exact (export_bare_file_name (PS := FifoSet) exporter disk0
           "weights.pkl" true H).
Defined.

Lemma load_replaces_both_tables_witness :
  fst (export (PS := FifoSet) exporter disk0 "out/weights.pkl" false)
  = Returned true
  /\ (let self1 :=
        fst (snd (export (PS := FifoSet) exporter disk0
                    "out/weights.pkl" false)) in
      let w1 :=
        snd (snd (export (PS := FifoSet) exporter disk0
                    "out/weights.pkl" false)) in
      load (doc1_doc2 true) w1 "out/weights.pkl"
      = (Returned true,
         {| _dataset := [];
            _tf_idf_results := _tf_idf_results self1;
            _results_up_to_date := _results_up_to_date (doc1_doc2 true);
            _compute_on_add := _compute_on_add (doc1_doc2 true) |})).
Proof.
  assert (H : fst (export (PS := FifoSet) exporter disk0
                     "out/weights.pkl" false) = Returned true)
    by reflexivity.
  split; [exact H|].
  exact (load_replaces_both_tables (PS := FifoSet) exporter (doc1_doc2 true)
           disk0 "out/weights.pkl" false H).
Defined.

Lemma failed_export_spoils_file_witness :
  fst (load (PF := RFloat) (TfIdf true) full_disk "out/weights.pkl")
  = Returned true
  /\ (let w1 := snd (snd (export (PS := FifoSet) exporter full_disk
                            "out/weights.pkl" true)) in
      fst (export (PS := FifoSet) exporter full_disk "out/weights.pkl" true)
      = Returned false
      /\ Dict.get "out/weights.pkl" (files w1) = Some Garbage
      /\ load (PF := RFloat) (TfIdf true) w1 "out/weights.pkl"
         = (Returned false, TfIdf true)).
Proof.
  split; [reflexivity|].
  apply (failed_export_spoils_file (PS := FifoSet) exporter (TfIdf true)
           full_disk "out/weights.pkl" true); reflexivity.
Defined.

End FurtherExamples.

(** ** Reading one weight *)

Section OneWeight.
Context {PF : PyFloat} {PS : PySet}.

(** X19.  [_score_term] returns the weight stored for the term and the
    document and raises [KeyError] when the term or the document has no
    entry.  In the loops of [score_document], which call it only for a
    term found in the results and a document listed under that term, it
    therefore never raises and returns the weight listed with the
    document; and after a recomputation that returned, it returns
    [TF * IDF] for every document of the dataset that holds the term. *)
Theorem score_term_reads_weight (self : engine) (term document : string) :
  _score_term self term document
  = match weight_at (_tf_idf_results self) term document with
    | Some w => Returned w
    | None => Raised KeyError
    end
  /\ (forall ws w,
        Dict.get term (_tf_idf_results self) = Some ws ->
        NoDup (Dict.keys ws) -> In (document, w) ws ->
        _score_term self term document = Returned w)
  /\ (NoDup (Dict.keys (_dataset self)) ->
      _results_up_to_date self = true ->
      fst (_compute_results self) = Returned tt ->
      forall doc,
        Dict.get document (_dataset self) = Some doc ->
        Dict.mem term (term_count doc) = true ->
        _score_term (snd (_compute_results self)) term document
        = Returned (fmul (TF doc term) (IDF (_dataset self) term))).
Proof.
  assert (Hread : forall s : engine,
             _score_term s term document
             = match weight_at (_tf_idf_results s) term document with
               | Some w => Returned w
               | None => Raised KeyError
               end).
  { intros s. unfold _score_term, weight_at.
    destruct (Dict.get term (_tf_idf_results s)) as [ws|]; auto. }
  split; [apply Hread|]. split.
  - intros ws w Hget Hnd Hin. eapply score_term_paired; eauto.
  - intros Hnd Hflag Hret doc Hdoc Hmem.
    rewrite Hread, compute_results_weights by assumption.
    unfold tf_idf_table. now rewrite Hdoc, Hmem.
Qed.
End OneWeight.
